(** * A request logger: shallow embedding of [src/log.ts]

    The module under study exports a leveled logging facade ([log.info],
    [log.warn], [log.debug], [log.error]), a swappable adapter
    ([setLogAdapter]) and an Express middleware ([logger]) that logs the
    start and the completion of every request.

    The code is effectful: it reads the clock and the random source, writes
    to the filesystem and to the console, mutates a module-level binding and
    patches a method of the response object.  It is embedded as state passing
    in a state-and-exception monad in which the state survives a throw, as
    it does in JavaScript. *)

From Stdlib Require Import Ascii.
From stdpp Require Import base option list strings gmap pretty.

Open Scope Z_scope.

(** ** Completions and the effect monad *)

(** A JavaScript call either returns a value or throws.  A thrown value is
    represented by the text that [`${error}`] renders for it. *)
Inductive Completion (A : Type) : Type :=
| Normal (a : A)
| Throw (e : string).
Arguments Normal {A} a.
Arguments Throw {A} e.

Definition Eff (S A : Type) : Type := S → Completion A * S.

Global Instance Eff_ret {S} : MRet (Eff S) := λ A a s, (Normal a, s).

Global Instance Eff_bind {S} : MBind (Eff S) := λ A B k m s,
  match m s with
  | (Normal a, s') => k a s'
  | (Throw e, s') => (Throw e, s')
  end.

Definition throw {S A} (e : string) : Eff S A := λ s, (Throw e, s).

(** [try { body } catch (error) { handler }] *)
Definition try_catch {S A} (body : Eff S A) (handler : string → Eff S A) : Eff S A :=
  λ s, match body s with
       | (Normal a, s') => (Normal a, s')
       | (Throw e, s') => handler e s'
       end.

Definition gets {S A} (f : S → A) : Eff S A := λ s, (Normal (f s), s).
Definition modify {S} (f : S → S) : Eff S unit := λ s, (Normal tt, f s).

Definition returns {S A} (m : Eff S A) (s : S) : Prop := ∃ a, (m s).1 = Normal a.

(** ** The host: filesystem, console, clock, random source *)

(** [export enum LogLevel] *)
Inductive LogLevel := INFO | WARN | ERROR | DEBUG.

Global Instance LogLevel_eq_dec : EqDecision LogLevel.
Proof. solve_decision. Defined.

(** The value of an enum member, as a template literal interpolates it. *)
Definition level_name (l : LogLevel) : string :=
  match l with
  | INFO => "INFO"
  | WARN => "WARN"
  | ERROR => "ERROR"
  | DEBUG => "DEBUG"
  end.

(** The four methods of [console] the adapter calls. *)
Inductive ConsoleMethod := ConsoleLog | ConsoleError | ConsoleWarn | ConsoleDebug.

(** The chalk styles the adapter uses. *)
Inductive Color := Red | Yellow | Gray | Blue | Cyan.

(** An absolute path, as the list of its segments below the root. *)
Abbreviation Path := (list string).

(** [path.join(dir, name)] for a single segment [name]. *)
Definition join (dir : Path) (name : string) : Path := dir ++ [name].

Definition parent (p : Path) : Path := removelast p.

(** Every attempted write to the filesystem, failed ones included. *)
Inductive Syscall :=
| SysMkdir (p : Path)
| SysAppend (p : Path) (data : string).

Record World := {
  cwd : Path;                          (* process.cwd() *)
  dirs : gset (list string);           (* directories, the root apart *)
  files : gmap (list string) string;   (* regular files and their content *)
  fault : option string;               (* a failing disk: every write throws this *)
  syscalls : list Syscall;
  console : list (ConsoleMethod * string);
  clock : Z;                           (* Date.now(), milliseconds *)
  toLocaleString : Z → string;         (* Date.prototype.toLocaleString *)
  chalk : Color → string → string;     (* chalk.red, chalk.yellow, ... *)
  uuids : nat → string;                (* what crypto.randomUUID() will return *)
  drawn : nat;                         (* how many identifiers were drawn *)
}.

Definition set_dirs (d : gset (list string)) (w : World) : World :=
  {| cwd := cwd w; dirs := d; files := files w; fault := fault w;
     syscalls := syscalls w; console := console w; clock := clock w;
     toLocaleString := toLocaleString w; chalk := chalk w;
     uuids := uuids w; drawn := drawn w |}.

Definition set_files (f : gmap (list string) string) (w : World) : World :=
  {| cwd := cwd w; dirs := dirs w; files := f; fault := fault w;
     syscalls := syscalls w; console := console w; clock := clock w;
     toLocaleString := toLocaleString w; chalk := chalk w;
     uuids := uuids w; drawn := drawn w |}.

Definition set_syscalls (l : list Syscall) (w : World) : World :=
  {| cwd := cwd w; dirs := dirs w; files := files w; fault := fault w;
     syscalls := l; console := console w; clock := clock w;
     toLocaleString := toLocaleString w; chalk := chalk w;
     uuids := uuids w; drawn := drawn w |}.

Definition set_console (c : list (ConsoleMethod * string)) (w : World) : World :=
  {| cwd := cwd w; dirs := dirs w; files := files w; fault := fault w;
     syscalls := syscalls w; console := c; clock := clock w;
     toLocaleString := toLocaleString w; chalk := chalk w;
     uuids := uuids w; drawn := drawn w |}.

Definition set_drawn (n : nat) (w : World) : World :=
  {| cwd := cwd w; dirs := dirs w; files := files w; fault := fault w;
     syscalls := syscalls w; console := console w; clock := clock w;
     toLocaleString := toLocaleString w; chalk := chalk w;
     uuids := uuids w; drawn := n |}.

Module Fs.

Definition is_dir (w : World) (p : Path) : bool :=
  bool_decide (p = [] ∨ p ∈ dirs w).

Definition is_file (w : World) (p : Path) : bool :=
  bool_decide (is_Some (files w !! p)).

Definition exists_ (w : World) (p : Path) : bool := is_dir w p || is_file w p.

(** The directories [mkdir -p] has to make sure of: [p] and its ancestors. *)
Fixpoint prefixes (p : Path) : list Path :=
  match p with
  | [] => []
  | x :: q => [x] :: map (cons x) (prefixes q)
  end.

(** Why [mkdirSync(p, { recursive: true })] would throw, if it would. *)
Definition mkdir_error (w : World) (p : Path) : option string :=
  match fault w with
  | Some e => Some e
  | None =>
      if existsb (is_file w) (prefixes p)
      then Some "Error: ENOTDIR: not a directory, mkdir"
      else None
  end.

(** Why [appendFileSync(p, data)] would throw, if it would. *)
Definition append_error (w : World) (p : Path) : option string :=
  match fault w with
  | Some e => Some e
  | None =>
      if is_dir w p then Some "Error: EISDIR: illegal operation on a directory, open"
      else if is_dir w (parent p) then None
      else if is_file w (parent p) then Some "Error: ENOTDIR: not a directory, open"
      else Some "Error: ENOENT: no such file or directory, open"
  end.

Definition existsSync (p : Path) : Eff World bool := gets (λ w, exists_ w p).

Definition mkdirSync (p : Path) : Eff World unit := λ w,
  let w := set_syscalls (syscalls w ++ [SysMkdir p]) w in
  match mkdir_error w p with
  | Some e => (Throw e, w)
  | None => (Normal tt, set_dirs (dirs w ∪ list_to_set (prefixes p)) w)
  end.

Definition appendFileSync (p : Path) (data : string) : Eff World unit := λ w,
  let w := set_syscalls (syscalls w ++ [SysAppend p data]) w in
  match append_error w p with
  | Some e => (Throw e, w)
  | None =>
      (Normal tt, set_files (<[p := default "" (files w !! p) +:+ data]> (files w)) w)
  end.

End Fs.

Module Console.

Definition emit (c : ConsoleMethod) (line : string) : Eff World unit :=
  modify (λ w, set_console (console w ++ [(c, line)]) w).

Definition log := emit ConsoleLog.
Definition error := emit ConsoleError.
Definition warn := emit ConsoleWarn.
Definition debug := emit ConsoleDebug.

End Console.

(** [Date.now()] *)
Definition Date_now : Eff World Z := gets clock.

(** [new Date().toLocaleString()] *)
Definition Date_toLocaleString : Eff World string :=
  gets (λ w, toLocaleString w (clock w)).

(** [crypto.randomUUID()] *)
Definition randomUUID : Eff World string := λ w,
  (Normal (uuids w (drawn w)), set_drawn (S (drawn w)) w).

Definition chalk_ (c : Color) (s : string) : Eff World string :=
  gets (λ w, chalk w c s).

(** ** JavaScript strings *)

Module Js.

(** Truthiness of an optional string: [undefined] and [""] are falsy. *)
Definition truthy (o : option string) : bool :=
  match o with
  | None => false
  | Some "" => false
  | Some _ => true
  end.

Fixpoint skip (n : nat) (s : string) : string :=
  match n, s with
  | S n', String _ s' => skip n' s'
  | _, _ => s
  end.

(** The first occurrence of [pat] in [s]: what comes before and after it. *)
Fixpoint split_first (pat s : string) : option (string * string) :=
  if String.prefix pat s
  then Some ("", skip (String.length pat) s)
  else match s with
       | "" => None
       | String c s' =>
           match split_first pat s' with
           | Some (before, after) => Some (String c before, after)
           | None => None
           end
       end.

(** GetSubstitution for a string pattern (no capture groups): [$$], [$&],
    [$`] and [$'] are expanded, every other character is copied. *)
Fixpoint getSubstitution (matched before after replacement : string) : string :=
  match replacement with
  | "" => ""
  | String "$"%char (String "$"%char r) =>
      "$" +:+ getSubstitution matched before after r
  | String "$"%char (String "&"%char r) =>
      matched +:+ getSubstitution matched before after r
  | String "$"%char (String "`"%char r) =>
      before +:+ getSubstitution matched before after r
  | String "$"%char (String "'"%char r) =>
      after +:+ getSubstitution matched before after r
  | String c r => String c (getSubstitution matched before after r)
  end.

(** [s.replace(pat, replacement)] with a string pattern: the first
    occurrence only. *)
Definition replace (s pat replacement : string) : string :=
  match split_first pat s with
  | Some (before, after) =>
      before +:+ getSubstitution pat before after replacement +:+ after
  | None => s
  end.


(** How a template literal renders a [string | undefined]. *)
Definition interp (o : option string) : string :=
  match o with
  | Some s => s
  | None => "undefined"
  end.

(** A value passed to, or returned by, the response's [end]. *)
Inductive Value :=
| Undefined
| Str (s : string)
| Num (n : Z)
| Fn (f : nat)
| Obj (o : nat).

(** The [i]-th formal parameter of a call with the actual arguments [args]. *)
Definition arg (i : nat) (args : list Value) : Value := nth i args Undefined.

End Js.

Definition LF : string := String "010"%char "".

(** ** The adapter interface and the built-in adapter *)

(** [interface LogAdapter].  The [adapter_id] stands for the identity of the
    adapter object, which is all the call history records of it.  An
    adapter's [log] may do anything to the world and may throw; it does not
    call back into this module. *)
Record LogAdapter := {
  adapter_id : nat;
  log : LogLevel → string → option string → Eff World unit;
}.

Module DefaultLogAdapter.

Definition tag (level : LogLevel) : string := "[" +:+ level_name level +:+ "]".

(** [log(level, message, method?)], with [logDir] the module constant it
    closes over. *)
Definition log (logDir : Path) (level : LogLevel) (message : string)
    (method : option string) : Eff World unit :=
  try_catch
    (timestamp ← Date_toLocaleString;
     methodColor ← (if Js.truthy method
                    then chalk_ Cyan (Js.interp method +:+ " ")
                    else mret "");
     let logMessage :=
       tag level +:+ " " +:+
       (if Js.truthy method then Js.interp method +:+ " " else "") +:+
       timestamp +:+ ": " +:+ message +:+ LF in
     let coloredMessage :=
       tag level +:+ " " +:+ methodColor +:+ timestamp +:+ ": " +:+ message +:+ LF in
     Fs.appendFileSync (join logDir "app.log") logMessage;;
     match level with
     | ERROR =>
         red ← chalk_ Red (tag level);
         Console.error (Js.replace coloredMessage (tag level) red)
     | WARN =>
         yellow ← chalk_ Yellow (tag level);
         Console.warn (Js.replace coloredMessage (tag level) yellow)
     | DEBUG =>
         gray ← chalk_ Gray (tag level);
         Console.debug (Js.replace coloredMessage (tag level) gray)
     | _ =>
         blue ← chalk_ Blue (tag level);
         Console.log (Js.replace coloredMessage (tag level) blue)
     end)
    (λ error, Console.error ("Failed to write log: " +:+ error)).

End DefaultLogAdapter.

(** [new DefaultLogAdapter()] *)
Definition defaultAdapter (logDir : Path) : LogAdapter :=
  {| adapter_id := 0; log := DefaultLogAdapter.log logDir |}.

(** ** Module state, requests and responses *)

(** [res.end] is a closure.  It is either the transport's own [end] or the
    wrapper that [logger] installs, which closes over the request's
    identifier, URL, method and start time and over the [end] it replaced. *)
Inductive EndFn :=
| HostEnd
| LoggedEnd (requestId url method : string) (startTime : Z) (originalEnd : EndFn).

Record Request := {
  req_ref : nat;        (* the request object *)
  req_method : string;  (* req.method *)
  req_url : string;     (* req.url *)
}.

(** What the program did that is not a change of the world: calls of the
    bound adapter's [log], calls of a continuation, calls of the transport's
    [end].  The history is a record kept for the proofs; no code reads it. *)
Inductive Event :=
| EvLog (adapter : nat) (level : LogLevel) (message : string) (method : option string)
| EvNext
| EvEnd (res : nat) (args : list Js.Value).

Record State := {
  world : World;
  logAdapter : LogAdapter;           (* let logAdapter *)
  res_end : gmap nat EndFn;          (* res.end, of the responses that were patched *)
  req_requestId : gmap nat string;   (* req.requestId *)
  history : list Event;
}.

Definition set_world (w : World) (s : State) : State :=
  {| world := w; logAdapter := logAdapter s; res_end := res_end s;
     req_requestId := req_requestId s; history := history s |}.

Definition set_logAdapter (a : LogAdapter) (s : State) : State :=
  {| world := world s; logAdapter := a; res_end := res_end s;
     req_requestId := req_requestId s; history := history s |}.

Definition set_res_end (m : gmap nat EndFn) (s : State) : State :=
  {| world := world s; logAdapter := logAdapter s; res_end := m;
     req_requestId := req_requestId s; history := history s |}.

Definition set_req_requestId (m : gmap nat string) (s : State) : State :=
  {| world := world s; logAdapter := logAdapter s; res_end := res_end s;
     req_requestId := m; history := history s |}.

Definition set_history (h : list Event) (s : State) : State :=
  {| world := world s; logAdapter := logAdapter s; res_end := res_end s;
     req_requestId := req_requestId s; history := h |}.

(** Run an action on the world inside the module's state. *)
Definition lift {A} (m : Eff World A) : Eff State A := λ s,
  let r := m (world s) in (r.1, set_world r.2 s).

Definition record (e : Event) : Eff State unit :=
  modify (λ s, set_history (history s ++ [e]) s).

(** The [end] a response currently has. *)
Definition end_of (s : State) (res : nat) : EndFn := default HostEnd (res_end s !! res).

(** Module initialisation: the top-level statements of [log.ts]. *)
Definition load : Eff World State :=
  logDir ← gets (λ w, join (cwd w) "log");
  present ← Fs.existsSync logDir;
  (if negb present then Fs.mkdirSync logDir else mret tt);;
  w ← gets id;
  mret {| world := w; logAdapter := defaultAdapter logDir; res_end := ∅;
          req_requestId := ∅; history := [] |}.

Definition setLogAdapter (adapter : LogAdapter) : Eff State unit :=
  modify (set_logAdapter adapter).

Definition writeLog (message : string) (level : option LogLevel)
    (method : option string) : Eff State unit :=
  let level := default INFO level in
  adapter ← gets logAdapter;
  record (EvLog (adapter_id adapter) level message method);;
  lift (log adapter level message method).

(** ** The middleware *)

Definition started_line (requestId url : string) : string :=
  "[" +:+ requestId +:+ "] " +:+ url +:+ " - Request started".

Definition completed_line (requestId url : string) (duration : Z) : string :=
  "[" +:+ requestId +:+ "] " +:+ url +:+ " - Request completed in " +:+
  pretty duration +:+ "ms".

(** Calling [res.end(...args)] when [res.end] is [f]. *)
Fixpoint apply_end (f : EndFn) (res : nat) (args : list Js.Value) : Eff State Js.Value :=
  match f with
  | HostEnd => record (EvEnd res args);; mret (Js.Obj res)
  | LoggedEnd requestId url method startTime originalEnd =>
      let chunk := Js.arg 0 args in
      let encoding := Js.arg 1 args in
      let cb := Js.arg 2 args in
      now ← lift Date_now;
      let duration := now - startTime in
      writeLog (completed_line requestId url duration) (Some INFO) (Some method);;
      apply_end originalEnd res [chunk; encoding; cb]
  end.

Definition call_end (res : nat) (args : list Js.Value) : Eff State Js.Value :=
  f ← gets (λ s, end_of s res);
  apply_end f res args.

Definition call_next (next : Eff State unit) : Eff State unit :=
  record EvNext;; next.

Definition logger (req : Request) (res : nat) (next : Eff State unit) : Eff State unit :=
  requestId ← lift randomUUID;
  let method := req_method req in
  let url := req_url req in
  startTime ← lift Date_now;
  modify (λ s, set_req_requestId (<[req_ref req := requestId]> (req_requestId s)) s);;
  writeLog (started_line requestId url) (Some INFO) (Some method);;
  originalEnd ← gets (λ s, end_of s res);
  modify (λ s, set_res_end
                 (<[res := LoggedEnd requestId url method startTime originalEnd]> (res_end s)) s);;
  call_next next.

(** ** The facade *)

Module Log.

Definition info (message : string) : Eff State unit := writeLog message (Some INFO) None.
Definition warn (message : string) : Eff State unit := writeLog message (Some WARN) None.
Definition debug (message : string) : Eff State unit := writeLog message (Some DEBUG) None.
Definition error (message : string) : Eff State unit := writeLog message (Some ERROR) None.

(** The method named after a level. *)
Definition at_level (level : LogLevel) : string → Eff State unit :=
  match level with
  | INFO => info
  | WARN => warn
  | DEBUG => debug
  | ERROR => error
  end.

End Log.

(** ** Programs against the module

    What client code and the HTTP host do with the module, in the order they
    do it: calls of the facade, uses of the middleware (with what the
    continuation does), calls of a response's [end], rebinding of the
    adapter, changes of the world that are not the module's doing (time
    passing, the disk filling up), and tasks whose exception the host
    absorbs. *)
Inductive Script :=
| Done
| CallLog (level : LogLevel) (message : string) (k : Script)
| Use (req : Request) (res : nat) (next : Script) (k : Script)
| Finish (res : nat) (args : list Js.Value) (k : Script)
| SetAdapter (a : LogAdapter) (k : Script)
| Elapse (f : World → World) (k : Script)
| Task (body : Script) (k : Script).

Fixpoint exec (p : Script) : Eff State unit :=
  match p with
  | Done => mret tt
  | CallLog level message k => Log.at_level level message;; exec k
  | Use req res next k => logger req res (exec next);; exec k
  | Finish res args k => call_end res args;; exec k
  | SetAdapter a k => setLogAdapter a;; exec k
  | Elapse f k => lift (modify f);; exec k
  | Task body k => try_catch (exec body) (λ _, mret tt);; exec k
  end.

(** Does the program rebind the adapter? *)
Fixpoint rebinds (p : Script) : bool :=
  match p with
  | Done => false
  | CallLog _ _ k | Finish _ _ k | Elapse _ k => rebinds k
  | Use _ _ next k => rebinds next || rebinds k
  | SetAdapter _ _ => true
  | Task body k => rebinds body || rebinds k
  end.

(** ** Vocabulary of the statements *)

(** An adapter that honours the interface's contract: its [log] returns. *)
Definition total (a : LogAdapter) : Prop :=
  ∀ level message method w, (log a level message method w).1 = Normal tt.

(** The event is not a call of an adapter other than [a]. *)
Definition to_adapter (a : LogAdapter) (ev : Event) : Prop :=
  match ev with
  | EvLog id _ _ _ => id = adapter_id a
  | _ => True
  end.

(** From [s] to [s'] the adapter [a] stayed bound, the history only grew,
    and every call of an adapter that was added went to [a]. *)
Definition routes (a : LogAdapter) (s s' : State) : Prop :=
  logAdapter s' = a ∧
  ∃ evs, history s' = history s ++ evs ∧ Forall (to_adapter a) evs.

Definition Routed {A} (a : LogAdapter) (m : Eff State A) : Prop :=
  ∀ s, logAdapter s = a → routes a s (m s).2.

Definition is_next (ev : Event) : bool :=
  match ev with
  | EvNext => true
  | _ => false
  end.

(** How often a continuation was called. *)
Definition next_calls (s : State) : nat := length (List.filter is_next (history s)).

Fixpoint has_dollar (s : string) : bool :=
  match s with
  | "" => false
  | String c s' => if decide (c = "$"%char) then true else has_dollar s'
  end.

(** The switch of [DefaultLogAdapter.log], as two tables. *)
Definition level_color (level : LogLevel) : Color :=
  match level with
  | ERROR => Red
  | WARN => Yellow
  | DEBUG => Gray
  | INFO => Blue
  end.

Definition level_console (level : LogLevel) : ConsoleMethod :=
  match level with
  | ERROR => ConsoleError
  | WARN => ConsoleWarn
  | DEBUG => ConsoleDebug
  | INFO => ConsoleLog
  end.

(** The record format in the words of the specification,
    [[LEVEL] [METHOD ]TIMESTAMP: MESSAGE\n], with the method segment for
    every method that is supplied. *)
Definition spec_plain_line (level : LogLevel) (method : option string)
    (timestamp message : string) : string :=
  "[" +:+ level_name level +:+ "] " +:+
  match method with Some m => m +:+ " " | None => "" end +:+
  timestamp +:+ ": " +:+ message +:+ LF.

(** ** Concrete hosts, for examples *)

Module Example.

Definition ESC : string := String "027"%char "".

(** chalk on a terminal with colours: ANSI foreground codes. *)
Definition ansi (c : Color) (s : string) : string :=
  ESC +:+ "[" +:+
  match c with
  | Red => "31" | Yellow => "33" | Gray => "90" | Blue => "34" | Cyan => "36"
  end +:+ "m" +:+ s +:+ ESC +:+ "[39m".

(** A process started in [/srv/app], where no [log] directory exists. *)
Definition fresh : World :=
  {| cwd := ["srv"; "app"];
     dirs := {[ ["srv"]; ["srv"; "app"] ]};
     files := ∅;
     fault := None;
     syscalls := [];
     console := [];
     clock := 1700000000000;
     toLocaleString := λ t, "T" +:+ pretty t;
     chalk := ansi;
     uuids := λ n, "id-" +:+ pretty n;
     drawn := 0 |}.

Definition logDir : Path := ["srv"; "app"; "log"].

(** The same process once the [log] directory is there. *)
Definition ready : World := set_dirs (dirs fresh ∪ {[ logDir ]}) fresh.

(** The same, on a disk that is full. *)
Definition full_disk : World :=
  {| cwd := cwd ready; dirs := dirs ready; files := files ready;
     fault := Some "Error: ENOSPC: no space left on device, write";
     syscalls := []; console := []; clock := clock ready;
     toLocaleString := toLocaleString ready; chalk := chalk ready;
     uuids := uuids ready; drawn := 0 |}.

(** An adapter whose [log] throws. *)
Definition throwing : LogAdapter :=
  {| adapter_id := 1; log := λ _ _ _, throw "Error: adapter down" |}.

(** An adapter that drops every record. *)
Definition silent : LogAdapter :=
  {| adapter_id := 2; log := λ _ _ _, mret tt |}.

Definition module_state (a : LogAdapter) (w : World) : State :=
  {| world := w; logAdapter := a; res_end := ∅; req_requestId := ∅; history := [] |}.

Definition health : Request :=
  {| req_ref := 1; req_method := "GET"; req_url := "/health" |}.

(** The wall clock is set back by [d] milliseconds. *)
Definition set_back (d : Z) (w : World) : World :=
  {| cwd := cwd w; dirs := dirs w; files := files w; fault := fault w;
     syscalls := syscalls w; console := console w; clock := clock w - d;
     toLocaleString := toLocaleString w; chalk := chalk w;
     uuids := uuids w; drawn := drawn w |}.

End Example.

(** ** The server bootstrap ([src/index.ts]) *)

(** How [startServer] ends when it does not throw: it returns with the
    server started by the host, or it ends the process through
    [process.exit(code)]. *)
Inductive Started :=
| Running
| Exited (code : Z).

(** [startServer].  The Express application is the host's: its [listen] is
    a parameter, which receives the port ([process.env.PORT], possibly
    absent) and the callback, and may call the callback, return or throw. *)
Definition startServer (port : option string)
    (listen : option string → Eff State unit → Eff State unit) : Eff State Started :=
  try_catch
    (listen port (Log.info ("Server running on port " +:+ Js.interp port));;
     mret Running)
    (λ error,
       Log.error ("Failed to start server: " +:+ error);;
       mret (Exited 1)).

(** ** More vocabulary *)

(** The record the built-in adapter builds, given the timestamp. *)
Definition record_line (timestamp : string) (level : LogLevel)
    (method : option string) (message : string) : string :=
  "[" +:+ level_name level +:+ "] " +:+
  match method with
  | Some (String c m) => String c m +:+ " "
  | _ => ""
  end +:+ timestamp +:+ ": " +:+ message +:+ LF.

(** The facade called once for each pair of [calls], in order. *)
Definition log_calls (calls : list (LogLevel * string)) : Script :=
  foldr (λ c k, CallLog c.1 c.2 k) Done calls.

(** The records of [calls], one after the other. *)
Definition record_lines (timestamp : string) (calls : list (LogLevel * string)) : string :=
  foldr (λ c rest, record_line timestamp c.1 None c.2 +:+ rest) "" calls.

(** The middleware used once for each request of [reqs], in order, with a
    continuation that does nothing. *)
Definition serve (reqs : list (Request * nat)) : Script :=
  foldr (λ r k, Use r.1 r.2 Done k) Done reqs.

(** [res.end] called once for each argument list of [calls], in order,
    each call a task of its own: what it throws goes to the host and the
    next call is made all the same. *)
Definition end_tasks (res : nat) (calls : list (list Js.Value)) : Script :=
  foldr (λ args k, Task (Finish res args Done) k) Done calls.

(** Does the program use the middleware on the response [res]? *)
Fixpoint patches (res : nat) (p : Script) : bool :=
  match p with
  | Done => false
  | CallLog _ _ k | Finish _ _ k | Elapse _ k | SetAdapter _ k => patches res k
  | Use _ res' next k => bool_decide (res' = res) || patches res next || patches res k
  | Task body k => patches res body || patches res k
  end.

(** The wrappers around the transport's [end], the outermost first: the
    identifier, URL and method each closes over. *)
Fixpoint wrappers (f : EndFn) : list (string * string * string) :=
  match f with
  | HostEnd => []
  | LoggedEnd requestId url method _ originalEnd =>
      (requestId, url, method) :: wrappers originalEnd
  end.

(** The arguments that reach the transport's [end]. *)
Definition forwarded (f : EndFn) (args : list Js.Value) : list Js.Value :=
  match f with
  | HostEnd => args
  | LoggedEnd _ _ _ _ _ => [Js.arg 0 args; Js.arg 1 args; Js.arg 2 args]
  end.

Definition is_end (ev : Event) : bool :=
  match ev with
  | EvEnd _ _ => true
  | _ => false
  end.

(** An adapter whose [log] throws [e], whatever it is given. *)
Definition always_throws (a : LogAdapter) (e : string) : Prop :=
  ∀ level message method w, (log a level message method w).1 = Throw e.

(** The clock shows [t]; the rest of the world is as it was. *)
Definition set_clock (t : Z) (w : World) : World :=
  {| cwd := cwd w; dirs := dirs w; files := files w; fault := fault w;
     syscalls := syscalls w; console := console w; clock := t;
     toLocaleString := toLocaleString w; chalk := chalk w;
     uuids := uuids w; drawn := drawn w |}.

(** Two worlds that differ at most in the files' contents, the console and
    the record of attempted writes. *)
Definition same_host (w w' : World) : Prop :=
  cwd w' = cwd w ∧ dirs w' = dirs w ∧ fault w' = fault w ∧ clock w' = clock w ∧
  toLocaleString w' = toLocaleString w ∧ chalk w' = chalk w ∧
  uuids w' = uuids w ∧ drawn w' = drawn w.

(** The action leaves the observation [obs] of the state as it was,
    however it completes. *)
Definition Preserves {A B} (obs : State → B) (m : Eff State A) : Prop :=
  ∀ s, obs (m s).2 = obs s.

(** More hosts, for examples. *)
Module Hosts.

(** A process started in [/srv/app] on a disk that accepts no write. *)
Definition unwritable : World :=
  {| cwd := cwd Example.fresh; dirs := dirs Example.fresh; files := files Example.fresh;
     fault := Some "Error: EACCES: permission denied, mkdir";
     syscalls := []; console := []; clock := clock Example.fresh;
     toLocaleString := toLocaleString Example.fresh; chalk := chalk Example.fresh;
     uuids := uuids Example.fresh; drawn := 0 |}.

(** A process started in [/srv/app], where [log] is a regular file. *)
Definition log_is_file : World :=
  set_files {[ Example.logDir := "notes" ]} Example.fresh.

(** An Express application whose [listen] throws, as it does for a port
    that is not a number. *)
Definition bad_port (port : option string) (callback : Eff State unit) : Eff State unit :=
  throw "RangeError [ERR_SOCKET_BAD_PORT]: options.port should be >= 0 and < 65536".

End Hosts.

(** * Properties *)

(** ** The effect monad *)

Lemma bind_normal {S A B} (m : Eff S A) (k : A → Eff S B) s a s' :
  m s = (Normal a, s') → (m ≫= k) s = k a s'.
Proof. intros H. unfold mbind, Eff_bind. by rewrite H. Qed.

(** ** String replacement *)

Section Replace.

Lemma prefix_append (pat rest : string) : String.prefix pat (pat +:+ rest) = true.
Proof.
  induction pat as [|c pat IH]; simpl.
  - by destruct rest.
  - destruct (Ascii.ascii_dec c c); [exact IH | done].
Qed.

Lemma skip_append (pat rest : string) : Js.skip (String.length pat) (pat +:+ rest) = rest.
Proof. induction pat as [|c pat IH]; simpl; [by destruct rest | exact IH]. Qed.

Lemma split_first_found (pat s : string) :
  String.prefix pat s = true →
  Js.split_first pat s = Some ("", Js.skip (String.length pat) s).
Proof. intros H. destruct s; cbn [Js.split_first]; by rewrite H. Qed.

Lemma split_first_head (pat rest : string) :
  Js.split_first pat (pat +:+ rest) = Some ("", rest).
Proof.
  rewrite split_first_found by apply prefix_append.
  by rewrite skip_append.
Qed.

Lemma getSubstitution_plain (matched before after r : string) :
  has_dollar r = false → Js.getSubstitution matched before after r = r.
Proof.
  induction r as [|c r IH]; [done|].
  cbn [has_dollar]. case_decide as Hc; [done|]. intros Hr.
  assert (Js.getSubstitution matched before after (String c r)
          = String c (Js.getSubstitution matched before after r)) as ->.
  { destruct c as [[] [] [] [] [] [] [] []]; try reflexivity.
    all: try (exfalso; apply Hc; reflexivity).
    all: destruct r as [|[[] [] [] [] [] [] [] []] r']; reflexivity. }
  by rewrite IH.
Qed.

(** Replacing a pattern the string starts with, by a text without [$]. *)
Lemma replace_head (pat rest r : string) :
  has_dollar r = false → Js.replace (pat +:+ rest) pat r = r +:+ rest.
Proof.
  intros Hr. unfold Js.replace.
  by rewrite split_first_head, getSubstitution_plain.
Qed.

End Replace.

(** [unfold_call H lemma]: the equation [lemma] gives for a call, with its
    local definitions expanded. *)
Ltac unfold_call H lemma := pose proof lemma as H; cbv zeta in H.

(** ** The built-in adapter *)

(** What one call of the built-in adapter does to the world. *)
Lemma log_eval logDir level message method w :
  let path := join logDir "app.log" in
  let timestamp := toLocaleString w (clock w) in
  let line :=
    DefaultLogAdapter.tag level +:+ " " +:+
    (if Js.truthy method then Js.interp method +:+ " " else "") +:+
    timestamp +:+ ": " +:+ message +:+ LF in
  let colored :=
    DefaultLogAdapter.tag level +:+ " " +:+
    (if Js.truthy method then chalk w Cyan (Js.interp method +:+ " ") else "") +:+
    timestamp +:+ ": " +:+ message +:+ LF in
  let w1 := set_syscalls (syscalls w ++ [SysAppend path line]) w in
  DefaultLogAdapter.log logDir level message method w =
  match Fs.append_error w path with
  | Some e =>
      (Normal tt,
       set_console (console w ++ [(ConsoleError, "Failed to write log: " +:+ e)]) w1)
  | None =>
      (Normal tt,
       set_console
         (console w ++
          [(level_console level,
            Js.replace colored (DefaultLogAdapter.tag level)
              (chalk w (level_color level) (DefaultLogAdapter.tag level)))])
         (set_files (<[path := default "" (files w !! path) +:+ line]> (files w)) w1))
  end.
Proof.
  intros path timestamp line colored w1.
  unfold DefaultLogAdapter.log, try_catch.
  destruct (Js.truthy method) eqn:Hm.
  all: cbv beta delta [mbind Eff_bind Date_toLocaleString chalk_ gets mret Eff_ret
                       Fs.appendFileSync] iota zeta.
  all: change (Fs.append_error _ (join logDir "app.log")) with (Fs.append_error w path).
  all: destruct (Fs.append_error w path) as [e|] eqn:He; [reflexivity|].
  all: destruct level; reflexivity.
Qed.

Lemma segment_truthy (method : option string) :
  (if Js.truthy method then Js.interp method +:+ " " else "")
  = match method with
    | Some (String c m) => String c m +:+ " "
    | _ => ""
    end.
Proof. by destruct method as [[|c m]|]. Qed.

(** A successful append extends the log file by one line. *)
Lemma log_appends logDir level message method w :
  let path := join logDir "app.log" in
  Fs.append_error w path = None →
  ∃ line, files (DefaultLogAdapter.log logDir level message method w).2
          = <[path := default "" (files w !! path) +:+ line]> (files w).
Proof.
  intros path Happend.
  unfold_call H (log_eval logDir level message method w).
  fold path in H. rewrite H, Happend. cbn. eauto.
Qed.

Lemma defaultAdapter_total logDir : total (defaultAdapter logDir).
Proof.
  intros level message method w. cbn [log defaultAdapter].
  unfold_call H (log_eval logDir level message method w).
  rewrite H. by destruct (Fs.append_error w (join logDir "app.log")).
Qed.

(** C1. A call of the built-in adapter's [log] returns normally, whatever
    the level, the message, the method and the state of the host.  When the
    append to the log file fails with an error, the adapter attempted the
    append once, left the files and directories as they were, and wrote one
    line to [console.error]: ["Failed to write log: "] followed by the
    error. *)
Theorem default_log_never_raises logDir level message method w :
  let path := join logDir "app.log" in
  let r := DefaultLogAdapter.log logDir level message method w in
  r.1 = Normal tt ∧
  ∀ e, Fs.append_error w path = Some e →
    console r.2 = console w ++ [(ConsoleError, "Failed to write log: " +:+ e)] ∧
    (∃ line, syscalls r.2 = syscalls w ++ [SysAppend path line]) ∧
    files r.2 = files w ∧ dirs r.2 = dirs w.
Proof.
  intros path r. subst r.
  unfold_call H (log_eval logDir level message method w).
  fold path in H. rewrite H. clear H. split.
  - by destruct (Fs.append_error w path).
  - intros e ->. cbn. eauto.
Qed.

Lemma default_log_never_raises_witness :
  Fs.append_error Example.full_disk (join Example.logDir "app.log")
    = Some "Error: ENOSPC: no space left on device, write" ∧
  console (DefaultLogAdapter.log Example.logDir ERROR "boom" None Example.full_disk).2
    = console Example.full_disk ++
      [(ConsoleError,
        "Failed to write log: " +:+ "Error: ENOSPC: no space left on device, write")].
Proof.
  split; [reflexivity|].
  apply (proj2 (default_log_never_raises Example.logDir ERROR "boom" None
                  Example.full_disk)).
  reflexivity.
Defined.

(** C6, as the code has it.  The adapter attempts one append to
    [<logDir>/app.log], of the line [[LEVEL] ] then the method segment then
    [TIMESTAMP: MESSAGE] and a line feed; the method segment is the method
    followed by one space when a non-empty method was supplied, and is empty
    when no method or the empty string was supplied.  When the append
    succeeds, the file's content is its former content, or nothing for a new
    file, followed by that line. *)
Theorem plain_line_format logDir level message method w :
  let path := join logDir "app.log" in
  let segment :=
    match method with
    | Some (String c m) => String c m +:+ " "
    | _ => ""
    end in
  let line :=
    "[" +:+ level_name level +:+ "] " +:+ segment +:+
    toLocaleString w (clock w) +:+ ": " +:+ message +:+ LF in
  let r := DefaultLogAdapter.log logDir level message method w in
  syscalls r.2 = syscalls w ++ [SysAppend path line] ∧
  (Fs.append_error w path = None →
   files r.2 = <[path := default "" (files w !! path) +:+ line]> (files w)).
Proof.
  intros path segment line r. subst r.
  unfold_call H (log_eval logDir level message method w).
  fold path in H. rewrite H. clear H.
  rewrite segment_truthy. fold segment.
  assert (DefaultLogAdapter.tag level +:+ " " +:+ segment +:+
          toLocaleString w (clock w) +:+ ": " +:+ message +:+ LF = line) as ->.
  { subst line. by destruct level. }
  split.
  - by destruct (Fs.append_error w path).
  - by intros ->.
Qed.

Lemma plain_line_format_witness :
  Fs.append_error Example.ready (join Example.logDir "app.log") = None ∧
  files (DefaultLogAdapter.log Example.logDir INFO "up" (Some "GET") Example.ready).2
    = <[join Example.logDir "app.log" :=
          default "" (files Example.ready !! join Example.logDir "app.log") +:+
          ("[" +:+ level_name INFO +:+ "] " +:+ ("GET" +:+ " ") +:+
           toLocaleString Example.ready (clock Example.ready) +:+ ": " +:+ "up" +:+ LF)]>
        (files Example.ready).
Proof.
  split; [vm_compute; reflexivity|].
  apply (proj2 (plain_line_format Example.logDir INFO "up" (Some "GET") Example.ready)).
  vm_compute. reflexivity.
Defined.

(** C6, as the specification words it, fails for the empty method: the
    method is supplied, yet the appended line has no method segment. *)
Lemma plain_line_empty_method_cex :
  syscalls (DefaultLogAdapter.log Example.logDir INFO "up" (Some "") Example.ready).2
    = [SysAppend (join Example.logDir "app.log") ("[INFO] T1700000000000: up" +:+ LF)] ∧
  spec_plain_line INFO (Some "") "T1700000000000" "up"
    = "[INFO]  T1700000000000: up" +:+ LF ∧
  "[INFO] T1700000000000: up" +:+ LF ≠ spec_plain_line INFO (Some "") "T1700000000000" "up".
Proof. split; [|split]; [vm_compute; reflexivity | reflexivity | discriminate]. Qed.

(** C7, as the code has it.  When the append succeeds, the adapter writes
    one line to the console: the plain line with the [[LEVEL]] tag passed
    through chalk's
    red for ERROR, yellow for WARN, gray for DEBUG and blue for INFO, and
    with the method segment, when there is one, passed through chalk's
    cyan.  The line goes to [console.error] for ERROR, [console.warn] for
    WARN, [console.debug] for DEBUG and [console.log] for INFO.  Where chalk
    adds nothing, the console line is the plain line.  (The styled tag must
    not contain a dollar sign, which [String.prototype.replace] would
    expand; no ANSI styling does.)  When the append fails, no styled line is
    written: the one line added to the console is the fallback on
    [console.error]. *)
Theorem console_line_styled logDir level message method w :
  let path := join logDir "app.log" in
  let tag := "[" +:+ level_name level +:+ "]" in
  let rest := toLocaleString w (clock w) +:+ ": " +:+ message +:+ LF in
  let segment :=
    match method with
    | Some (String c m) => String c m +:+ " "
    | _ => ""
    end in
  let styled_segment :=
    match method with
    | Some (String c m) => chalk w Cyan (String c m +:+ " ")
    | _ => ""
    end in
  let plain := tag +:+ " " +:+ segment +:+ rest in
  let styled := chalk w (level_color level) tag +:+ " " +:+ styled_segment +:+ rest in
  let r := DefaultLogAdapter.log logDir level message method w in
  (Fs.append_error w path = None →
   has_dollar (chalk w (level_color level) tag) = false →
   syscalls r.2 = syscalls w ++ [SysAppend path plain] ∧
   console r.2 = console w ++ [(level_console level, styled)] ∧
   ((∀ c s, chalk w c s = s) → styled = plain)) ∧
  (∀ e, Fs.append_error w path = Some e →
        console r.2 = console w ++ [(ConsoleError, "Failed to write log: " +:+ e)]).
Proof.
  intros path tag rest segment styled_segment plain styled r.
  subst r.
  unfold_call H (log_eval logDir level message method w).
  fold path in H. rewrite H. clear H.
  split; [|by intros e ->].
  intros Happend Hdollar. rewrite Happend.
  cbn [snd console set_console set_files syscalls set_syscalls].
  change (DefaultLogAdapter.tag level) with tag.
  rewrite segment_truthy. fold segment. fold rest. fold plain.
  split; [reflexivity|].
  assert ((if Js.truthy method then chalk w Cyan (Js.interp method +:+ " ") else "")
          = styled_segment) as ->.
  { subst styled_segment. by destruct method as [[|c m]|]. }
  rewrite (replace_head tag) by exact Hdollar.
  split; [reflexivity|].
  intros Hplain. subst styled plain. rewrite Hplain. f_equal. f_equal.
  subst styled_segment segment. destruct method as [[|c m]|]; by rewrite ?Hplain.
Qed.

Lemma console_line_styled_witness :
  Fs.append_error Example.ready (join Example.logDir "app.log") = None ∧
  has_dollar (chalk Example.ready (level_color WARN) ("[" +:+ level_name WARN +:+ "]"))
    = false ∧
  console (DefaultLogAdapter.log Example.logDir WARN "slow" (Some "GET") Example.ready).2
    = console Example.ready ++
      [(level_console WARN,
        chalk Example.ready (level_color WARN) ("[" +:+ level_name WARN +:+ "]") +:+ " " +:+
        chalk Example.ready Cyan ("GET" +:+ " ") +:+
        (toLocaleString Example.ready (clock Example.ready) +:+ ": " +:+ "slow" +:+ LF))].
Proof.
  split; [vm_compute; reflexivity|]. split; [vm_compute; reflexivity|].
  apply (proj1 (console_line_styled Example.logDir WARN "slow" (Some "GET")
                  Example.ready)).
  - vm_compute. reflexivity.
  - vm_compute. reflexivity.
Defined.

(** C7, as the specification words it, fails: on a disk that is full, a
    WARN call leaves no styled line on any console method; the one line
    written is the fallback on [console.error]. *)
Lemma console_line_missing_cex :
  Fs.append_error Example.full_disk (join Example.logDir "app.log")
    = Some "Error: ENOSPC: no space left on device, write" ∧
  console (DefaultLogAdapter.log Example.logDir WARN "slow" (Some "GET")
             Example.full_disk).2
    = [(ConsoleError,
        "Failed to write log: Error: ENOSPC: no space left on device, write")].
Proof. split; vm_compute; reflexivity. Qed.

(** ** Module initialisation *)

Lemma prefixes_self (p : Path) : p ≠ [] → p ∈ Fs.prefixes p.
Proof.
  induction p as [|x q IH]; [done|]. intros _. cbn [Fs.prefixes].
  destruct q as [|y q']; [by left|].
  right. apply list_elem_of_fmap. exists (y :: q'). split; [done|]. by apply IH.
Qed.

Lemma prefixes_length (p q : Path) : q ∈ Fs.prefixes p → (length q ≤ length p)%nat.
Proof.
  revert q. induction p as [|x p IH]; intros q Hq; cbn [Fs.prefixes] in Hq.
  - by apply elem_of_nil in Hq.
  - apply elem_of_cons in Hq as [->|Hq]; [cbn; lia|].
    apply list_elem_of_fmap in Hq as (q' & -> & Hq'). apply IH in Hq'. cbn. lia.
Qed.

Lemma parent_join (dir : Path) (name : string) : parent (join dir name) = dir.
Proof. unfold parent, join. apply removelast_last. Qed.

(** C8, as the code has it.  Loading the module creates the directory
    [<cwd>/log] when nothing exists at that path: with one [mkdir], before
    any log call and without creating a file.  The file [<cwd>/log/app.log]
    comes into existence with a log call, through its append. *)
Theorem log_dir_created_at_load w :
  let logDir := join (cwd w) "log" in
  let path := join logDir "app.log" in
  Fs.exists_ w logDir = false →
  Fs.mkdir_error w logDir = None →
  Fs.exists_ w path = false →
  ∃ s, load w = (Normal s, world s) ∧
       logAdapter s = defaultAdapter logDir ∧
       history s = [] ∧
       syscalls (world s) = syscalls w ++ [SysMkdir logDir] ∧
       logDir ∈ dirs (world s) ∧
       files (world s) = files w ∧
       ∀ level message method,
         is_Some (files (log (logAdapter s) level message method (world s)).2 !! path).
Proof.
  intros logDir path Habsent Hmkdir Hfile.
  unfold load.
  cbv beta delta [mbind Eff_bind gets mret Eff_ret Fs.existsSync] iota zeta.
  fold logDir. rewrite Habsent. cbn [negb]. unfold Fs.mkdirSync.
  change (Fs.mkdir_error _ logDir) with (Fs.mkdir_error w logDir). rewrite Hmkdir.
  unfold id.
  match goal with |- ∃ s, (Normal ?s0, _) = _ ∧ _ => exists s0 end.
  split; [reflexivity|]. cbn.
  assert (logDir ∈ Fs.prefixes logDir) as Hself.
  { apply prefixes_self. unfold logDir, join. by destruct (cwd w). }
  repeat split; try done.
  - apply elem_of_union_r, elem_of_list_to_set, Hself.
  - intros level message method.
    match goal with |- context [DefaultLogAdapter.log _ _ _ _ ?w'] => set (w1 := w') end.
    assert (Fs.append_error w1 path = None) as Happend.
    { unfold Fs.append_error. subst w1. cbn [fault set_dirs set_syscalls].
      unfold Fs.mkdir_error in Hmkdir. destruct (fault w); [done|].
      apply orb_false_elim in Hfile as [Hdir _].
      unfold Fs.is_dir in *. cbn [dirs set_dirs] in *.
      apply bool_decide_eq_false in Hdir.
      assert (parent path = logDir) as -> by apply parent_join.
      rewrite (bool_decide_eq_false_2 (path = [] ∨ path ∈ _)).
      - rewrite (bool_decide_eq_true_2 (logDir = [] ∨ logDir ∈ _)); [done|].
        right. apply elem_of_union_r, elem_of_list_to_set, Hself.
      - intros [Hnil|Hin]; [by apply Hdir; left|].
        apply elem_of_union in Hin as [Hin|Hin].
        + apply Hdir. by right.
        + apply elem_of_list_to_set, prefixes_length in Hin.
          unfold path, join in Hin. rewrite length_app in Hin. cbn in Hin. lia. }
    destruct (log_appends logDir level message method w1 Happend) as [line Hf].
    fold path in Hf. rewrite Hf, lookup_insert_eq. eauto.
Qed.

Lemma log_dir_created_at_load_witness :
  let logDir := join (cwd Example.fresh) "log" in
  (Fs.exists_ Example.fresh logDir = false ∧
   Fs.mkdir_error Example.fresh logDir = None ∧
   Fs.exists_ Example.fresh (join logDir "app.log") = false) ∧
  ∃ s, load Example.fresh = (Normal s, world s) ∧ logDir ∈ dirs (world s).
Proof.
  split; [repeat split; vm_compute; reflexivity|].
  destruct (log_dir_created_at_load Example.fresh) as (s & Hs & _ & _ & _ & Hd & _).
  - vm_compute. reflexivity.
  - vm_compute. reflexivity.
  - vm_compute. reflexivity.
  - exists s. split; [exact Hs | exact Hd].
Defined.

(** C8, as the specification words it, fails: on a host without a [log]
    directory, loading the module has created the directory although no log
    call was made and no append was attempted. *)
Lemma log_dir_eager_cex :
  Fs.is_dir Example.fresh Example.logDir = false ∧
  match load Example.fresh with
  | (Normal s, w) =>
      history s = [] ∧
      syscalls w = [SysMkdir Example.logDir] ∧
      Fs.is_dir w Example.logDir = true ∧
      files w = ∅
  | (Throw _, _) => False
  end.
Proof. split; [vm_compute; reflexivity|]. vm_compute. repeat split. Qed.

(** ** Dispatch to the bound adapter *)

(** One call of [writeLog]: one call of the [log] of the adapter that is
    bound when [writeLog] reads the binding, recorded in the history. *)
Lemma writeLog_eval message level method s :
  let l := default INFO level in
  let r := log (logAdapter s) l message method (world s) in
  writeLog message level method s =
  (r.1, set_world r.2
          (set_history
             (history s ++ [EvLog (adapter_id (logAdapter s)) l message method]) s)).
Proof. reflexivity. Qed.

(** The state in which the middleware calls the adapter for the "started"
    line, and the state in which it calls the continuation. *)
Lemma logger_eval req res next s :
  let requestId := uuids (world s) (drawn (world s)) in
  let startTime := clock (world s) in
  let message := started_line requestId (req_url req) in
  let r := log (logAdapter s) INFO message (Some (req_method req))
             (set_drawn (S (drawn (world s))) (world s)) in
  let s1 :=
    {| world := r.2;
       logAdapter := logAdapter s;
       res_end := res_end s;
       req_requestId := <[req_ref req := requestId]> (req_requestId s);
       history := history s ++
                  [EvLog (adapter_id (logAdapter s)) INFO message (Some (req_method req))] |} in
  let hook := LoggedEnd requestId (req_url req) (req_method req) startTime (end_of s res) in
  logger req res next s =
  match r.1 with
  | Normal _ =>
      next (set_history (history s1 ++ [EvNext]) (set_res_end (<[res := hook]> (res_end s)) s1))
  | Throw e => (Throw e, s1)
  end.
Proof.
  intros requestId startTime message r s1 hook.
  unfold logger.
  cbv beta delta [mbind Eff_bind lift randomUUID Date_now gets modify fst snd] iota zeta.
  cbn [world set_world clock set_drawn uuids drawn].
  rewrite writeLog_eval. cbv zeta. cbn [default].
  cbn [world logAdapter set_world set_req_requestId history set_history].
  fold requestId message. fold r.
  destruct (r.1) eqn:Hr; reflexivity.
Qed.

Lemma apply_end_host res args s :
  apply_end HostEnd res args s
  = (Normal (Js.Obj res), set_history (history s ++ [EvEnd res args]) s).
Proof. reflexivity. Qed.

(** One call of the wrapper that [logger] installs. *)
Lemma apply_end_logged requestId url method startTime originalEnd res args s :
  let message := completed_line requestId url (clock (world s) - startTime) in
  let r := log (logAdapter s) INFO message (Some method) (world s) in
  let s1 :=
    set_world r.2
      (set_history
         (history s ++ [EvLog (adapter_id (logAdapter s)) INFO message (Some method)]) s) in
  apply_end (LoggedEnd requestId url method startTime originalEnd) res args s =
  match r.1 with
  | Normal _ => apply_end originalEnd res [Js.arg 0 args; Js.arg 1 args; Js.arg 2 args] s1
  | Throw e => (Throw e, s1)
  end.
Proof.
  intros message r s1. cbn [apply_end].
  cbv beta delta [mbind Eff_bind lift Date_now gets fst snd] iota zeta.
  cbn [clock world set_world].
  rewrite writeLog_eval. cbv zeta. cbn [default].
  fold message. fold r. destruct (r.1); reflexivity.
Qed.

Lemma end_of_insert res hook h (m : gmap nat EndFn) s :
  end_of (set_history h (set_res_end (<[res := hook]> m) s)) res = hook.
Proof. unfold end_of. cbn. by rewrite lookup_insert_eq. Qed.

(** C3. Each of [log.info], [log.warn], [log.debug] and [log.error], called
    with a message, calls the [log] of the adapter that is bound at that
    moment once, with the level the method is named after, the message, and
    no method: the history grows by that one call, the world changes as the
    adapter's [log] changes it, and the call completes as the adapter's
    [log] does. *)
Theorem facade_dispatches_once message s :
  let a := logAdapter s in
  let dispatched level :=
    let r := log a level message None (world s) in
    (r.1, set_world r.2
            (set_history (history s ++ [EvLog (adapter_id a) level message None]) s)) in
  Log.info message s = dispatched INFO ∧
  Log.warn message s = dispatched WARN ∧
  Log.debug message s = dispatched DEBUG ∧
  Log.error message s = dispatched ERROR.
Proof.
  intros a dispatched. unfold Log.info, Log.warn, Log.debug, Log.error.
  rewrite !writeLog_eval. cbv zeta. cbn [default].
  repeat split.
Qed.

(** C2, as the code has it.  The middleware calls the bound adapter once
    for the "started" line, with level INFO, the message
    [[<requestId>] <url> - Request started] and the request's method.
    When that call returns, the middleware stores the identifier on the
    request, replaces the response's [end] and only then calls the
    continuation, in a state that differs from the one it was entered in by
    exactly that.  From then on, whenever the [end] it installed is called,
    at clock reading [t], that wrapper calls the adapter bound at that
    moment once, with level INFO, the message
    [[<requestId>] <url> - Request completed in <N>ms] with the same
    identifier and URL and with [N] the difference of [t] and the clock
    reading at arrival, and the same method, and then calls the [end] it
    replaced.  When the call for the "started" line throws, the middleware
    throws the same error and leaves the response's [end] as it was, so
    that no "completed" line follows. *)
Theorem logger_started_and_completed req res next s :
  let requestId := uuids (world s) (drawn (world s)) in
  let method := req_method req in
  let url := req_url req in
  let started := "[" +:+ requestId +:+ "] " +:+ url +:+ " - Request started" in
  let completed N :=
    "[" +:+ requestId +:+ "] " +:+ url +:+ " - Request completed in " +:+
    pretty N +:+ "ms" in
  let c0 := log (logAdapter s) INFO started (Some method)
              (set_drawn (S (drawn (world s))) (world s)) in
  let logged := history s ++ [EvLog (adapter_id (logAdapter s)) INFO started (Some method)] in
  (c0.1 = Normal tt →
   ∃ s1,
     logger req res next s = next s1 ∧
     world s1 = c0.2 ∧
     logAdapter s1 = logAdapter s ∧
     history s1 = logged ++ [EvNext] ∧
     req_requestId s1 = <[req_ref req := requestId]> (req_requestId s) ∧
     (∀ res', res' ≠ res → end_of s1 res' = end_of s res') ∧
     ∀ s2 args,
       let message := completed (clock (world s2) - clock (world s)) in
       let c := log (logAdapter s2) INFO message (Some method) (world s2) in
       let s3 :=
         set_world c.2
           (set_history
              (history s2 ++ [EvLog (adapter_id (logAdapter s2)) INFO message (Some method)])
              s2) in
       apply_end (end_of s1 res) res args s2 =
       match c.1 with
       | Normal _ =>
           apply_end (end_of s res) res [Js.arg 0 args; Js.arg 1 args; Js.arg 2 args] s3
       | Throw e => (Throw e, s3)
       end) ∧
  (∀ e, c0.1 = Throw e →
   ∃ s1,
     logger req res next s = (Throw e, s1) ∧
     world s1 = c0.2 ∧
     logAdapter s1 = logAdapter s ∧
     history s1 = logged ∧
     res_end s1 = res_end s).
Proof.
  intros requestId method url started completed c0 logged.
  unfold_call H (logger_eval req res next s).
  unfold started_line in H. fold requestId method url in H. fold started in H.
  fold c0 in H. split.
  - intros Hstarted. rewrite Hstarted in H.
    eexists. split; [exact H|]. cbn [world logAdapter history req_requestId
                                     set_history set_res_end].
    repeat split.
    + intros res' Hres'. unfold end_of. cbn. by rewrite lookup_insert_ne.
    + intros s2 args. rewrite end_of_insert.
      unfold_call Hend (apply_end_logged requestId url method (clock (world s))
                          (end_of s res) res args s2).
      exact Hend.
  - intros e Hthrow. rewrite Hthrow in H. eexists. split; [exact H|]. done.
Qed.

Lemma logger_started_and_completed_witness :
  let s := Example.module_state (defaultAdapter Example.logDir) Example.ready in
  ∃ s1,
    logger Example.health 7 (mret tt) s = (Normal tt, s1) ∧
    history s1 =
      (history s ++
       [EvLog (adapter_id (logAdapter s)) INFO
          ("[" +:+ "id-0" +:+ "] " +:+ "/health" +:+ " - Request started") (Some "GET")]) ++
      [EvNext].
Proof.
  intros s.
  destruct (proj1 (logger_started_and_completed Example.health 7 (mret tt) s))
    as (s1 & Hrun & _ & _ & Hhist & _).
  - apply defaultAdapter_total.
  - exists s1. split; [exact Hrun | exact Hhist].
Defined.

(** C2, as the specification words it, fails: the adapter bound when the
    request arrives throws, the middleware throws before it replaces the
    response's [end], and when the response is ended later, with an adapter
    that works by then, no "completed" line follows. *)
Lemma logger_no_completed_line_cex :
  let s := Example.module_state Example.throwing Example.ready in
  let p := Task (Use Example.health 7 Done Done)
             (SetAdapter Example.silent (Finish 7 [Js.Str "bye"] Done)) in
  (logger Example.health 7 (mret tt) s).1 = Throw "Error: adapter down" ∧
  exec p s =
  (Normal tt,
   {| world := set_drawn 1 Example.ready;
      logAdapter := Example.silent;
      res_end := ∅;
      req_requestId := {[ 1%nat := "id-0" ]};
      history := [EvLog 1 INFO "[id-0] /health - Request started" (Some "GET");
                  EvEnd 7 [Js.Str "bye"]] |}).
Proof. split; vm_compute; reflexivity. Qed.

(** ** Routing: who is called while an adapter stays bound *)

Create HintDb routed.

Section Routing.

Variable a : LogAdapter.

Lemma routes_refl s : logAdapter s = a → routes a s s.
Proof. intros H. split; [done|]. exists []. by rewrite app_nil_r. Qed.

Lemma routes_trans s1 s2 s3 : routes a s1 s2 → routes a s2 s3 → routes a s1 s3.
Proof.
  intros [_ (e12 & H12 & F12)] [Ha (e23 & H23 & F23)]. split; [done|].
  exists (e12 ++ e23). split.
  - by rewrite H23, H12, app_assoc.
  - by apply Forall_app.
Qed.

Lemma routes_record ev s :
  logAdapter s = a → to_adapter a ev → routes a s (set_history (history s ++ [ev]) s).
Proof. intros Ha Hev. split; [done|]. exists [ev]. split; [done|]. by constructor. Qed.

Lemma Routed_ret {A} (x : A) : Routed a (mret x).
Proof. intros s Hs. by apply routes_refl. Qed.

Lemma Routed_bind {A B} (m : Eff State A) (k : A → Eff State B) :
  Routed a m → (∀ x, Routed a (k x)) → Routed a (m ≫= k).
Proof.
  intros Hm Hk s Hs. specialize (Hm s Hs).
  unfold mbind, Eff_bind. destruct (m s) as [[x|e] s1]; cbn [snd] in *; [|done].
  eapply routes_trans; [exact Hm|]. apply Hk, Hm.
Qed.

Lemma Routed_try_catch {A} (body : Eff State A) (handler : string → Eff State A) :
  Routed a body → (∀ e, Routed a (handler e)) → Routed a (try_catch body handler).
Proof.
  intros Hb Hh s Hs. specialize (Hb s Hs).
  unfold try_catch. destruct (body s) as [[x|e] s1]; cbn [snd] in *; [done|].
  eapply routes_trans; [exact Hb|]. apply Hh, Hb.
Qed.

Lemma Routed_gets {A} (f : State → A) : Routed a (gets f).
Proof. intros s Hs. by apply routes_refl. Qed.

Lemma Routed_lift {A} (m : Eff World A) : Routed a (lift m).
Proof. intros s Hs. split; [done|]. exists []. by rewrite app_nil_r. Qed.

Lemma Routed_record ev : to_adapter a ev → Routed a (record ev).
Proof. intros Hev s Hs. by apply routes_record. Qed.

Lemma Routed_set_res_end (f : State → gmap nat EndFn) :
  Routed a (modify (λ s, set_res_end (f s) s)).
Proof. intros s Hs. split; [done|]. exists []. by rewrite app_nil_r. Qed.

Lemma Routed_set_req_requestId (f : State → gmap nat string) :
  Routed a (modify (λ s, set_req_requestId (f s) s)).
Proof. intros s Hs. split; [done|]. exists []. by rewrite app_nil_r. Qed.

Lemma Routed_writeLog message level method : Routed a (writeLog message level method).
Proof.
  intros s Hs. rewrite writeLog_eval. cbv zeta. cbn [snd].
  split; [done|]. eexists. split; [reflexivity|].
  constructor; [|constructor]. cbn. by rewrite Hs.
Qed.

Hint Resolve Routed_ret Routed_gets Routed_lift Routed_record Routed_set_res_end
  Routed_set_req_requestId Routed_writeLog : routed.

Lemma Routed_apply_end f res args : Routed a (apply_end f res args).
Proof.
  revert args. induction f as [|requestId url method startTime f IH]; intros args.
  - cbn [apply_end]. apply Routed_bind; [by apply Routed_record|]. auto with routed.
  - cbn [apply_end]. apply Routed_bind; [auto with routed|]. intros now.
    apply Routed_bind; [auto with routed|]. intros _. apply IH.
Qed.

Lemma Routed_call_end res args : Routed a (call_end res args).
Proof.
  apply Routed_bind; [auto with routed|]. intros f. apply Routed_apply_end.
Qed.

Lemma Routed_logger req res next : Routed a next → Routed a (logger req res next).
Proof.
  intros Hnext. unfold logger, call_next.
  repeat (apply Routed_bind; [solve [auto with routed]|]; intros ?).
  apply Routed_bind; [by apply Routed_record|]. intros _. exact Hnext.
Qed.

Lemma Routed_at_level level message : Routed a (Log.at_level level message).
Proof. destruct level; apply Routed_writeLog. Qed.

(** A program that does not rebind the adapter calls no other adapter. *)
Lemma Routed_exec p : rebinds p = false → Routed a (exec p).
Proof.
  induction p as [|level message k IHk|req res next IHnext k IHk|res args k IHk
                 |b k IHk|f k IHk|body IHbody k IHk]; cbn [exec rebinds]; intros Hp.
  - apply Routed_ret.
  - apply Routed_bind; [apply Routed_at_level | intros _; by apply IHk].
  - apply orb_false_elim in Hp as [Hn Hk].
    apply Routed_bind; [apply Routed_logger; by apply IHnext | intros _; by apply IHk].
  - apply Routed_bind; [apply Routed_call_end | intros _; by apply IHk].
  - done.
  - apply Routed_bind; [apply Routed_lift | intros _; by apply IHk].
  - apply orb_false_elim in Hp as [Hb Hk].
    apply Routed_bind; [|intros _; by apply IHk].
    apply Routed_try_catch; [by apply IHbody | intros _; apply Routed_ret].
Qed.

End Routing.

(** Whatever [end] a response has, calling it only adds to the history. *)
Lemma apply_end_extends f res args s :
  ∃ evs, history (apply_end f res args s).2 = history s ++ evs.
Proof.
  destruct (Routed_apply_end (logAdapter s) f res args s eq_refl) as [_ (evs & H & _)].
  eauto.
Qed.

(** ** The middleware and the continuation *)

Lemma next_calls_app h evs s :
  next_calls (set_history (h ++ evs) s)
  = (length (List.filter is_next h) + length (List.filter is_next evs))%nat.
Proof. unfold next_calls. cbn [history set_history]. by rewrite List.filter_app, length_app. Qed.

(** C4, as the code has it.  When the adapter's [log] returns for the
    "started" line, as the built-in adapter's always does, the middleware
    calls the continuation once, synchronously, after the "started" line
    and after the response was patched, and completes as the continuation
    does.  When the adapter's [log] throws, the middleware throws the same
    error to its caller and the continuation is not called. *)
Theorem logger_calls_next_once req res next s :
  let requestId := uuids (world s) (drawn (world s)) in
  let message := started_line requestId (req_url req) in
  let c := log (logAdapter s) INFO message (Some (req_method req))
             (set_drawn (S (drawn (world s))) (world s)) in
  (c.1 = Normal tt →
   ∃ s1, logger req res next s = next s1 ∧
         next_calls s1 = S (next_calls s) ∧
         history s1 = history s ++
           [EvLog (adapter_id (logAdapter s)) INFO message (Some (req_method req)); EvNext]) ∧
  (∀ e, c.1 = Throw e →
   ∃ s1, logger req res next s = (Throw e, s1) ∧ next_calls s1 = next_calls s).
Proof.
  intros requestId message c.
  unfold_call H (logger_eval req res next s).
  fold requestId message c in H. split.
  - intros Hc. rewrite Hc in H. eexists. split; [exact H|]. split.
    + rewrite next_calls_app. cbn [history].
      rewrite List.filter_app, length_app. unfold next_calls. cbn. lia.
    + cbn. by rewrite <- app_assoc.
  - intros e Hc. rewrite Hc in H. eexists. split; [exact H|].
    unfold next_calls. cbn [history]. rewrite List.filter_app, length_app. cbn. lia.
Qed.

Lemma logger_calls_next_once_witness :
  let s := Example.module_state (defaultAdapter Example.logDir) Example.ready in
  ∃ s1, logger Example.health 7 (mret tt) s = (Normal tt, s1) ∧
        next_calls s1 = S (next_calls s).
Proof.
  intros s.
  destruct (proj1 (logger_calls_next_once Example.health 7 (mret tt) s))
    as (s1 & Hrun & Hcalls & _).
  - apply defaultAdapter_total.
  - exists s1. split; [exact Hrun | exact Hcalls].
Defined.

(** C4, as the specification words it, fails: with an adapter whose [log]
    throws, the middleware throws and the continuation is never called. *)
Lemma logger_skips_next_cex :
  let s := Example.module_state Example.throwing Example.ready in
  let r := logger Example.health 7 (mret tt) s in
  r.1 = Throw "Error: adapter down" ∧
  next_calls r.2 = 0%nat ∧
  history r.2 = [EvLog 1 INFO "[id-0] /health - Request started" (Some "GET")] ∧
  end_of r.2 7 = HostEnd.
Proof. vm_compute. repeat split. Qed.

(** C5. [setLogAdapter a] changes the binding and nothing else: the history
    of calls already made, the world and the patched responses are as they
    were.  After any program that does not rebind the adapter (calls of the
    facade, uses of the middleware and what their continuations do, calls
    of a response's [end], failures included), [a] is still bound and every
    call of an adapter made meanwhile was recorded as a call of [a].  At
    every such moment a log call runs the [log] of [a], and of no other
    adapter: a call of [log.info], [log.warn], [log.debug] or [log.error]
    changes the world as [a]'s [log] changes it, for the named level, the
    message and no method, and completes as [a]'s [log] does; so does the
    middleware, for the "started" line; and so does the wrapper of a
    patched response, for the "completed" line, also when the wrapper was
    installed before the rebinding. *)
Theorem setLogAdapter_routes a p s :
  rebinds p = false →
  let s0 := (setLogAdapter a s).2 in
  let t := (exec p s0).2 in
  (logAdapter s0 = a ∧ history s0 = history s ∧ world s0 = world s ∧
   res_end s0 = res_end s) ∧
  logAdapter t = a ∧
  (∃ evs, history t = history s ++ evs ∧ Forall (to_adapter a) evs) ∧
  (let dispatched level message :=
     let c := log a level message None (world t) in
     (c.1, set_world c.2
             (set_history (history t ++ [EvLog (adapter_id a) level message None]) t)) in
   ∀ message,
     Log.info message t = dispatched INFO message ∧
     Log.warn message t = dispatched WARN message ∧
     Log.debug message t = dispatched DEBUG message ∧
     Log.error message t = dispatched ERROR message) ∧
  (∀ req res next,
     let requestId := uuids (world t) (drawn (world t)) in
     let started :=
       "[" +:+ requestId +:+ "] " +:+ req_url req +:+ " - Request started" in
     let c := log a INFO started (Some (req_method req))
                (set_drawn (S (drawn (world t))) (world t)) in
     ∃ t1, world t1 = c.2 ∧
           history t1 = history t ++ [EvLog (adapter_id a) INFO started (Some (req_method req))] ∧
           match c.1 with
           | Normal _ =>
               ∃ t2, logger req res next t = next t2 ∧ world t2 = c.2 ∧
                     history t2 = history t1 ++ [EvNext]
           | Throw e => logger req res next t = (Throw e, t1)
           end) ∧
  (∀ res args requestId url method startTime originalEnd,
     end_of t res = LoggedEnd requestId url method startTime originalEnd →
     let completed :=
       "[" +:+ requestId +:+ "] " +:+ url +:+ " - Request completed in " +:+
       pretty (clock (world t) - startTime) +:+ "ms" in
     let c := log a INFO completed (Some method) (world t) in
     let t1 :=
       set_world c.2
         (set_history (history t ++ [EvLog (adapter_id a) INFO completed (Some method)]) t) in
     call_end res args t =
     match c.1 with
     | Normal _ => apply_end originalEnd res [Js.arg 0 args; Js.arg 1 args; Js.arg 2 args] t1
     | Throw e => (Throw e, t1)
     end).
Proof.
  intros Hp s0 t. split; [done|].
  destruct (Routed_exec a p Hp s0 eq_refl) as [Ha (evs & Hh & Hevs)].
  fold t in Ha, Hh.
  split; [exact Ha|]. split; [by exists evs|]. split; [|split].
  - intros dispatched message. subst dispatched.
    unfold Log.info, Log.warn, Log.debug, Log.error.
    rewrite !writeLog_eval. cbv zeta. cbn [default]. unfold id. rewrite Ha.
    repeat split.
  - intros req res next requestId started c.
    unfold_call H (logger_eval req res next t).
    unfold started_line in H. fold requestId in H. fold started in H.
    rewrite Ha in H. fold c in H.
    exists {| world := c.2; logAdapter := a; res_end := res_end t;
              req_requestId := <[req_ref req := requestId]> (req_requestId t);
              history := history t ++
                         [EvLog (adapter_id a) INFO started (Some (req_method req))] |}.
    split; [reflexivity|]. split; [reflexivity|].
    destruct (c.1) as [[]|e]; [|exact H].
    eexists. split; [exact H|]. split; reflexivity.
  - intros res args requestId url method startTime originalEnd Hend completed c t1.
    change (call_end res args t) with (apply_end (end_of t res) res args t).
    rewrite Hend.
    unfold_call H (apply_end_logged requestId url method startTime originalEnd res args t).
    unfold completed_line in H. fold completed in H. rewrite Ha in H.
    exact H.
Qed.

Lemma setLogAdapter_routes_witness :
  let p := CallLog WARN "swapped"
             (Use Example.health 7 (CallLog DEBUG "handler" Done) (Finish 7 [] Done)) in
  let s := Example.module_state (defaultAdapter Example.logDir) Example.ready in
  let t := (exec p (setLogAdapter Example.silent s).2).2 in
  rebinds p = false ∧
  logAdapter t = Example.silent ∧
  Log.error "late" t =
  ((log Example.silent ERROR "late" None (world t)).1,
   set_world (log Example.silent ERROR "late" None (world t)).2
     (set_history (history t ++ [EvLog (adapter_id Example.silent) ERROR "late" None]) t)).
Proof.
  intros p s t. split; [reflexivity|].
  pose proof (setLogAdapter_routes Example.silent p s eq_refl)
    as (_ & Ha & _ & Hfacade & _).
  split; [exact Ha|]. exact (proj2 (proj2 (proj2 (Hfacade "late")))).
Defined.

(** ** Completion *)

(** A number that is not negative is rendered as a natural number: digits
    only, no sign. *)
Lemma pretty_nonneg (n : Z) : 0 ≤ n → pretty n = pretty (Z.to_N n).
Proof. destruct n as [|p|p]; [reflexivity | reflexivity | lia]. Qed.

(** C9. When the adapter's [log] returned for the "started" line, every
    later call of the [end] the middleware installed hands the adapter the
    message [[<requestId>] <url> - Request completed in <N>ms] in which [N]
    is the clock reading at that call minus the clock reading the
    middleware took on arrival, before it logged the "started" line and
    before it called the continuation.  When the clock did not go back in
    between, [N] is not negative and the line shows it without a sign. *)
Theorem completed_duration req res next s :
  let requestId := uuids (world s) (drawn (world s)) in
  let method := req_method req in
  let url := req_url req in
  (log (logAdapter s) INFO
     ("[" +:+ requestId +:+ "] " +:+ url +:+ " - Request started") (Some method)
     (set_drawn (S (drawn (world s))) (world s))).1 = Normal tt →
  ∃ s1,
    logger req res next s = next s1 ∧
    ∀ s2 args,
      let N := clock (world s2) - clock (world s) in
      (∃ more,
         history (apply_end (end_of s1 res) res args s2).2 =
         history s2 ++
         EvLog (adapter_id (logAdapter s2)) INFO
           ("[" +:+ requestId +:+ "] " +:+ url +:+ " - Request completed in " +:+
            pretty N +:+ "ms")
           (Some method) :: more) ∧
      (clock (world s) ≤ clock (world s2) →
       0 ≤ N ∧
       "[" +:+ requestId +:+ "] " +:+ url +:+ " - Request completed in " +:+
       pretty N +:+ "ms"
       = "[" +:+ requestId +:+ "] " +:+ url +:+ " - Request completed in " +:+
         pretty (Z.to_N N) +:+ "ms").
Proof.
  intros requestId method url Hstarted.
  unfold_call H (logger_eval req res next s).
  unfold started_line in H. fold requestId method url in H. rewrite Hstarted in H.
  eexists. split; [exact H|]. intros s2 args N.
  split; [|intros Hclock; split; [lia | by rewrite pretty_nonneg by lia]].
  rewrite end_of_insert.
  unfold_call Hend
    (apply_end_logged requestId url method (clock (world s)) (end_of s res)
                res args s2).
  unfold completed_line in Hend. fold N in Hend. rewrite Hend. clear Hend.
  match goal with |- context [set_world ?w (set_history ?h s2)] =>
    set (s3 := set_world w (set_history h s2)) end.
  destruct (log (logAdapter s2) INFO _ _ _).1.
  - destruct (apply_end_extends (end_of s res) res
                [Js.arg 0 args; Js.arg 1 args; Js.arg 2 args] s3) as [evs Hevs].
    exists evs. rewrite Hevs. subst s3. cbn [history set_world set_history].
    by rewrite <- app_assoc.
  - exists []. reflexivity.
Qed.

Lemma completed_duration_witness :
  let s := Example.module_state (defaultAdapter Example.logDir) Example.ready in
  ∃ s1,
    logger Example.health 7 (mret tt) s = (Normal tt, s1) ∧
    let s2 := set_world (set_clock (clock Example.ready + 12) (world s1)) s1 in
    (∃ more,
       history (apply_end (end_of s1 7) 7 [] s2).2 =
       history s2 ++
       EvLog (adapter_id (logAdapter s2)) INFO
         ("[" +:+ "id-0" +:+ "] " +:+ "/health" +:+ " - Request completed in " +:+
          pretty 12 +:+ "ms")
         (Some "GET") :: more) ∧
    0 ≤ 12 ∧
    "[" +:+ "id-0" +:+ "] " +:+ "/health" +:+ " - Request completed in " +:+
    pretty 12 +:+ "ms"
    = "[" +:+ "id-0" +:+ "] " +:+ "/health" +:+ " - Request completed in " +:+
      pretty (Z.to_N 12) +:+ "ms".
Proof.
  intros s.
  destruct (completed_duration Example.health 7 (mret tt) s) as (s1 & Hrun & Hend).
  - apply defaultAdapter_total.
  - exists s1. split; [exact Hrun|]. intros s2.
    destruct (Hend s2 []) as [Hline Hsign].
    split; [exact Hline|]. apply Hsign. vm_compute. discriminate.
Defined.

(** [Date.now()] is the wall clock: when it is set back while a request is
    in flight, the "completed" line reports a negative number. *)
Example completed_duration_clock_set_back :
  let s := Example.module_state Example.silent Example.ready in
  history (exec (Use Example.health 7 Done
                   (Elapse (Example.set_back 5) (Finish 7 [] Done))) s).2
  = [EvLog 2 INFO "[id-0] /health - Request started" (Some "GET");
     EvNext;
     EvLog 2 INFO "[id-0] /health - Request completed in -5ms" (Some "GET");
     EvEnd 7 [Js.Undefined; Js.Undefined; Js.Undefined]].
Proof. vm_compute. reflexivity. Qed.

Lemma call_end_eval res args s : call_end res args s = apply_end (end_of s res) res args s.
Proof. reflexivity. Qed.

(** Every call of the wrapper logs, and delegates when the adapter
    returns; the wrapper stays. *)
Lemma end_tasks_blocks a requestId url method startTime res calls :
  ∀ t, logAdapter t = a →
       end_of t res = LoggedEnd requestId url method startTime HostEnd →
       ∃ blocks t',
         exec (end_tasks res calls) t = (Normal tt, t') ∧
         history t' = history t ++ concat blocks ∧
         Forall2 (λ args block, ∃ w,
                    let line :=
                      "[" +:+ requestId +:+ "] " +:+ url +:+ " - Request completed in " +:+
                      pretty (clock w - startTime) +:+ "ms" in
                    let c := log a INFO line (Some method) w in
                    block = EvLog (adapter_id a) INFO line (Some method) ::
                            match c.1 with
                            | Normal _ =>
                                [EvEnd res [Js.arg 0 args; Js.arg 1 args; Js.arg 2 args]]
                            | Throw _ => []
                            end)
                 calls blocks.
Proof.
  induction calls as [|args calls IH]; intros t Ht Hend.
  - exists [], t. split; [done|]. split; [by rewrite app_nil_r | constructor].
  - cbn [end_tasks foldr exec]. fold (end_tasks res calls).
    set (line := "[" +:+ requestId +:+ "] " +:+ url +:+ " - Request completed in " +:+
                 pretty (clock (world t) - startTime) +:+ "ms").
    set (c := log a INFO line (Some method) (world t)).
    set (block := EvLog (adapter_id a) INFO line (Some method) ::
                  match c.1 with
                  | Normal _ => [EvEnd res [Js.arg 0 args; Js.arg 1 args; Js.arg 2 args]]
                  | Throw _ => []
                  end).
    assert (∃ t1,
              try_catch (call_end res args ≫= λ _, mret tt) (λ _, mret tt) t
              = (Normal tt, t1) ∧
              logAdapter t1 = a ∧
              end_of t1 res = LoggedEnd requestId url method startTime HostEnd ∧
              history t1 = history t ++ block)
      as (t1 & Hcall & Ht1 & Hend1 & Hh1).
    { unfold try_catch, mbind, Eff_bind. rewrite call_end_eval, Hend.
      unfold_call H (apply_end_logged requestId url method startTime HostEnd res args t).
      unfold completed_line in H. fold line in H. rewrite Ht in H. fold c in H.
      rewrite H. subst block. destruct (c.1) as [[]|e].
      - rewrite apply_end_host. eexists. split; [reflexivity|].
        split; [exact Ht|]. split; [exact Hend|]. cbn. by rewrite <- app_assoc.
      - eexists. split; [reflexivity|]. split; [exact Ht|]. split; [exact Hend | done]. }
    rewrite (bind_normal _ _ _ _ _ Hcall).
    destruct (IH t1 Ht1 Hend1) as (blocks & t' & Hrun & Hh & Hblocks).
    exists (block :: blocks), t'. split; [exact Hrun|]. split.
    + rewrite Hh, Hh1. cbn [concat]. by rewrite <- app_assoc.
    + constructor; [|exact Hblocks]. by exists (world t).
Qed.

(** C10, as the code has it.  The wrapper has no once-only guard.  After a
    use of the middleware whose "started" line the adapter accepted, on a
    response that was not patched before, [k] calls of the replaced [end]
    leave [k] blocks in the history, one for each call and in order.  Each
    block starts with one call of the adapter, with level INFO, the message
    [[<requestId>] <url> - Request completed in <N>ms] carrying the
    request's identifier, and the request's method; it goes on with a call
    of the original [end], with the first three arguments of the call
    ([undefined] for those not given), when the adapter's [log] returned
    for that line, and stops there when it threw.  With an adapter whose
    [log] always returns, every block has both. *)
Theorem replaced_end_has_no_guard req res calls s :
  let requestId := uuids (world s) (drawn (world s)) in
  let method := req_method req in
  let url := req_url req in
  let a := logAdapter s in
  let started := "[" +:+ requestId +:+ "] " +:+ url +:+ " - Request started" in
  let completed N :=
    "[" +:+ requestId +:+ "] " +:+ url +:+ " - Request completed in " +:+
    pretty N +:+ "ms" in
  (log a INFO started (Some method) (set_drawn (S (drawn (world s))) (world s))).1
    = Normal tt →
  end_of s res = HostEnd →
  let s' := (exec (Use req res Done (end_tasks res calls)) s).2 in
  ∃ blocks,
    history s' = history s ++
      [EvLog (adapter_id a) INFO started (Some method); EvNext] ++ concat blocks ∧
    length blocks = length calls ∧
    Forall2 (λ args block, ∃ w,
               let N := clock w - clock (world s) in
               let c := log a INFO (completed N) (Some method) w in
               block = EvLog (adapter_id a) INFO (completed N) (Some method) ::
                       match c.1 with
                       | Normal _ =>
                           [EvEnd res [Js.arg 0 args; Js.arg 1 args; Js.arg 2 args]]
                       | Throw _ => []
                       end)
            calls blocks ∧
    (total a →
     Forall2 (λ args block, ∃ N,
                block = [EvLog (adapter_id a) INFO (completed N) (Some method);
                         EvEnd res [Js.arg 0 args; Js.arg 1 args; Js.arg 2 args]])
             calls blocks).
Proof.
  intros requestId method url a started completed Hstarted Hfresh s'. subst s'.
  cbn [exec].
  unfold_call H (logger_eval req res (mret tt) s).
  unfold started_line in H. fold requestId method url a in H. fold started in H.
  rewrite Hstarted, Hfresh in H.
  rewrite (bind_normal _ _ _ _ _ H).
  match goal with |- context [exec _ ?t] => set (t1 := t) end.
  destruct (end_tasks_blocks a requestId url method (clock (world s)) res calls t1)
    as (blocks & t' & Hrun & Hh & Hblocks).
  - reflexivity.
  - subst t1. apply end_of_insert.
  - exists blocks. rewrite Hrun. cbn [snd]. split; [|split; [|split]].
    + rewrite Hh. subst t1. cbn [history set_history set_res_end].
      by rewrite <- !app_assoc.
    + symmetry. by eapply Forall2_length.
    + exact Hblocks.
    + intros Ha. eapply Forall2_impl; [exact Hblocks|].
      intros args block [w Hblock]. cbv zeta in Hblock. rewrite Ha in Hblock.
      by exists (clock w - clock (world s)).
Qed.

Lemma replaced_end_has_no_guard_witness :
  let s := Example.module_state Example.silent Example.ready in
  let calls := [[Js.Str "done"]; []; [Js.Undefined; Js.Str "utf8"; Js.Fn 1; Js.Num 4]] in
  ∃ blocks,
    history (exec (Use Example.health 7 Done (end_tasks 7 calls)) s).2 =
      history s ++
      [EvLog (adapter_id Example.silent) INFO
         ("[" +:+ "id-0" +:+ "] " +:+ "/health" +:+ " - Request started") (Some "GET");
       EvNext] ++ concat blocks ∧
    length blocks = 3%nat.
Proof.
  intros s calls.
  destruct (replaced_end_has_no_guard Example.health 7 calls s)
    as (blocks & Hh & Hlen & _).
  - reflexivity.
  - reflexivity.
  - exists blocks. split; [exact Hh | exact Hlen].
Defined.

(** C10, as the specification words it, fails: the wrapper is installed
    while an adapter that works is bound; once an adapter whose [log]
    throws is bound, a call of the replaced [end] hands it the "completed"
    line, throws its error and does not call the original [end]. *)
Lemma replaced_end_no_delegation_cex :
  let s := (exec (Use Example.health 7 Done (SetAdapter Example.throwing Done))
              (Example.module_state Example.silent Example.ready)).2 in
  let r := call_end 7 [Js.Str "bye"] s in
  end_of s 7 = LoggedEnd "id-0" "/health" "GET" 1700000000000 HostEnd ∧
  r.1 = Throw "Error: adapter down" ∧
  history r.2 = history s ++
    [EvLog 1 INFO "[id-0] /health - Request completed in 0ms" (Some "GET")].
Proof. vm_compute. repeat split. Qed.

(** * Further properties of the code *)

(** ** The built-in adapter and the log file *)

Lemma string_app_assoc (a b c : string) : (a +:+ b) +:+ c = a +:+ b +:+ c.
Proof.
  induction a as [|x a IH]; [done|].
  change (String x ((a +:+ b) +:+ c) = String x (a +:+ b +:+ c)). by rewrite IH.
Qed.

Lemma string_app_nil_r (a : string) : a +:+ "" = a.
Proof.
  induction a as [|x a IH]; [done|].
  change (String x (a +:+ "") = String x a). by rewrite IH.
Qed.

Lemma record_line_eq timestamp level method message :
  DefaultLogAdapter.tag level +:+ " " +:+
  (if Js.truthy method then Js.interp method +:+ " " else "") +:+
  timestamp +:+ ": " +:+ message +:+ LF
  = record_line timestamp level method message.
Proof. rewrite segment_truthy. unfold record_line. by destruct level. Qed.

Lemma same_host_refl w : same_host w w.
Proof. by repeat split. Qed.

Lemma same_host_trans w1 w2 w3 : same_host w1 w2 → same_host w2 w3 → same_host w1 w3.
Proof.
  unfold same_host. intros (?&?&?&?&?&?&?&?) (?&?&?&?&?&?&?&?).
  repeat split; etrans; eauto.
Qed.

(** Whether an append can succeed is decided by the disk's health and the
    directories alone. *)
Lemma append_error_stable w w' p :
  same_host w w' → Fs.append_error w p = None → Fs.append_error w' p = None.
Proof.
  intros (_ & Hd & Hf & _). unfold Fs.append_error, Fs.is_dir. rewrite Hf, Hd.
  destruct (fault w); [done|].
  destruct (bool_decide (p = [] ∨ p ∈ dirs w)); [done|].
  destruct (bool_decide (parent p = [] ∨ parent p ∈ dirs w)); [done|].
  by destruct (Fs.is_file w (parent p)).
Qed.

(** A successful call of the built-in adapter, in full. *)
Lemma default_log_ok logDir level message method w :
  let path := join logDir "app.log" in
  let line := record_line (toLocaleString w (clock w)) level method message in
  Fs.append_error w path = None →
  ∃ w', DefaultLogAdapter.log logDir level message method w = (Normal tt, w') ∧
        same_host w w' ∧
        files w' = <[path := default "" (files w !! path) +:+ line]> (files w) ∧
        syscalls w' = syscalls w ++ [SysAppend path line] ∧
        ∃ styled, console w' = console w ++ [(level_console level, styled)].
Proof.
  intros path line Happend.
  unfold_call H (log_eval logDir level message method w).
  fold path in H. rewrite Happend, record_line_eq in H. fold line in H.
  eexists. split; [exact H|]. cbn. repeat split. eauto.
Qed.

(** X1. The built-in adapter touches nothing but the log file, the console
    and the record of attempted writes: directories, working directory,
    clock and random source are as they were, every other file is as it
    was, and the log file, when it exists, keeps its content as a prefix of
    its new content.  This holds whether or not the append succeeds. *)
Theorem default_log_frame logDir level message method w :
  let path := join logDir "app.log" in
  let r := DefaultLogAdapter.log logDir level message method w in
  same_host w r.2 ∧
  (∀ p, p ≠ path → files r.2 !! p = files w !! p) ∧
  (∀ old, files w !! path = Some old →
          ∃ added, files r.2 !! path = Some (old +:+ added)).
Proof.
  intros path r. subst r.
  unfold_call H (log_eval logDir level message method w).
  fold path in H. rewrite H. clear H.
  destruct (Fs.append_error w path) as [e|]; cbn.
  - split; [by repeat split|]. split; [done|].
    intros old Hold. exists "". by rewrite string_app_nil_r.
  - split; [by repeat split|]. split.
    + intros p Hp. by rewrite lookup_insert_ne.
    + intros old Hold. rewrite lookup_insert_eq, Hold. cbn. eauto.
Qed.

Lemma default_log_frame_witness :
  let w := set_files {[ ["etc"; "passwd"] := "root" ]} Example.ready in
  files (DefaultLogAdapter.log Example.logDir INFO "up" None w).2 !! ["etc"; "passwd"]
  = files w !! ["etc"; "passwd"].
Proof.
  intros w.
  apply (proj1 (proj2 (default_log_frame Example.logDir INFO "up" None w))).
  discriminate.
Defined.

Lemma at_level_writeLog level message :
  Log.at_level level message = writeLog message (Some level) None.
Proof. by destruct level. Qed.

(** A call of [writeLog] while the built-in adapter is bound. *)
Lemma writeLog_default logDir message level method s :
  logAdapter s = defaultAdapter logDir →
  writeLog message (Some level) method s =
  (Normal tt,
   set_world (DefaultLogAdapter.log logDir level message method (world s)).2
     (set_history (history s ++ [EvLog 0 level message method]) s)).
Proof.
  intros Ha. rewrite writeLog_eval. cbv zeta. cbn [default]. unfold id. rewrite Ha.
  by rewrite (defaultAdapter_total logDir level message method (world s)).
Qed.

(** X2. With the built-in adapter bound and a log file that can be
    appended to, a series of calls of the facade completes normally and
    extends the log file by the records of the calls, in the order of the
    calls.  Every other file is as it was; one append was attempted for
    each call, with that call's record; the console has one more line for
    each call, in order, written through the console method of the call's
    level; directories, working directory, clock and random source are as
    they were. *)
Theorem log_calls_append_in_order logDir calls s :
  let path := join logDir "app.log" in
  let w := world s in
  let timestamp := toLocaleString w (clock w) in
  logAdapter s = defaultAdapter logDir →
  Fs.append_error w path = None →
  ∃ s', exec (log_calls calls) s = (Normal tt, s') ∧
        default "" (files (world s') !! path)
        = default "" (files w !! path) +:+ record_lines timestamp calls ∧
        (∀ p, p ≠ path → files (world s') !! p = files w !! p) ∧
        syscalls (world s')
        = syscalls w ++ map (λ c, SysAppend path (record_line timestamp c.1 None c.2)) calls ∧
        (∃ lines, console (world s') = console w ++ lines ∧
                  Forall2 (λ c l, l.1 = level_console c.1) calls lines) ∧
        same_host w (world s').
Proof.
  intros path. revert s.
  induction calls as [|[level message] calls IH]; intros s w timestamp Ha Happend.
  - exists s. split; [done|]. split; [by rewrite string_app_nil_r|].
    split; [done|]. split; [by rewrite app_nil_r|].
    split; [|apply same_host_refl]. exists []. split; [by rewrite app_nil_r | constructor].
  - cbn [log_calls foldr exec fst snd]. fold (log_calls calls).
    rewrite at_level_writeLog.
    destruct (default_log_ok logDir level message None w Happend)
      as (w1 & Hlog & Hsame & Hfiles & Hsys & styled & Hconsole).
    rewrite (bind_normal _ _ _ _ _ (writeLog_default logDir message level None s Ha)).
    fold w. rewrite Hlog. cbn [snd].
    match goal with |- context [exec _ ?t] => set (s1 := t) end.
    destruct (IH s1) as (s' & Hrun & Hcontent & Hothers & Hsys' & (lines & Hcon' & Hlines) & Hsame').
    + exact Ha.
    + by apply (append_error_stable w).
    + assert (toLocaleString (world s1) (clock (world s1)) = timestamp) as Hts.
      { subst s1 timestamp. cbn [world set_world].
        destruct Hsame as (_ & _ & _ & Hclock & Hlocale & _). by rewrite Hlocale, Hclock. }
      rewrite Hts in Hcontent, Hsys'. fold path timestamp in Hfiles, Hsys.
      subst s1. cbn [world set_world] in *.
      exists s'. split; [exact Hrun|]. split; [|split; [|split; [|split]]].
      * rewrite Hcontent, Hfiles, lookup_insert_eq. cbn [default].
        unfold id, record_lines. cbn [foldr fst snd]. by rewrite string_app_assoc.
      * intros p Hp. rewrite (Hothers p Hp), Hfiles. by rewrite lookup_insert_ne.
      * rewrite Hsys', Hsys. cbn [map fst snd]. by rewrite <- app_assoc.
      * exists ((level_console level, styled) :: lines). split.
        -- rewrite Hcon', Hconsole. by rewrite <- app_assoc.
        -- by constructor.
      * by apply (same_host_trans w w1).
Qed.

Lemma log_calls_append_in_order_witness :
  let s := Example.module_state (defaultAdapter Example.logDir) Example.ready in
  ∃ s', exec (log_calls [(INFO, "one"); (ERROR, "two")]) s = (Normal tt, s') ∧
        default "" (files (world s') !! join Example.logDir "app.log")
        = "[INFO] T1700000000000: one" +:+ LF +:+ "[ERROR] T1700000000000: two" +:+ LF.
Proof.
  intros s.
  destruct (log_calls_append_in_order Example.logDir [(INFO, "one"); (ERROR, "two")] s)
    as (s' & Hrun & Hcontent & _).
  - reflexivity.
  - vm_compute. reflexivity.
  - exists s'. split; [exact Hrun|]. rewrite Hcontent. vm_compute. reflexivity.
Defined.

(** ** Loading the module *)

(** The three ways loading can go. *)
Lemma load_eval w :
  let logDir := join (cwd w) "log" in
  let loaded w' :=
    {| world := w'; logAdapter := defaultAdapter logDir; res_end := ∅;
       req_requestId := ∅; history := [] |} in
  let w1 := set_syscalls (syscalls w ++ [SysMkdir logDir]) w in
  let w2 := set_dirs (dirs w ∪ list_to_set (Fs.prefixes logDir)) w1 in
  load w =
  if Fs.exists_ w logDir then (Normal (loaded w), w)
  else match Fs.mkdir_error w logDir with
       | Some e => (Throw e, w1)
       | None => (Normal (loaded w2), w2)
       end.
Proof.
  intros logDir loaded w1 w2. unfold load.
  cbv beta delta [mbind Eff_bind gets mret Eff_ret Fs.existsSync] iota zeta.
  fold logDir. destruct (Fs.exists_ w logDir); cbn [negb]; [reflexivity|].
  unfold Fs.mkdirSync.
  change (Fs.mkdir_error _ logDir) with (Fs.mkdir_error w logDir).
  by destruct (Fs.mkdir_error w logDir).
Qed.

(** X3. Loading the module throws exactly when nothing exists at
    [<cwd>/log] and the directory cannot be made; the error is the one
    [mkdirSync] throws.  Unlike a failed append, this failure is not caught:
    the module cannot be imported. *)
Theorem load_throws_iff w e :
  let logDir := join (cwd w) "log" in
  (load w).1 = Throw e ↔
  Fs.exists_ w logDir = false ∧ Fs.mkdir_error w logDir = Some e.
Proof.
  intros logDir. unfold_call H (load_eval w). fold logDir in H. rewrite H. clear H.
  destruct (Fs.exists_ w logDir); [split; [done | by intros [? _]]|].
  destruct (Fs.mkdir_error w logDir) as [e'|]; cbn.
  - split; [intros [= ->]; done | intros [_ [= ->]]; done].
  - split; [done | by intros [_ ?]].
Qed.

Lemma load_throws_iff_witness :
  (load Hosts.unwritable).1 = Throw "Error: EACCES: permission denied, mkdir".
Proof.
  apply (proj2 (load_throws_iff Hosts.unwritable
                  "Error: EACCES: permission denied, mkdir")).
  split; vm_compute; reflexivity.
Defined.

(** X4. When [<cwd>/log] exists but is not a directory, loading the module
    succeeds without a single write, and from then on, as long as the
    directories stay as they are, every call of the built-in adapter
    leaves the files untouched and reports on [console.error] instead: the
    log file is never written. *)
Theorem log_path_taken_by_file w :
  let logDir := join (cwd w) "log" in
  Fs.is_file w logDir = true →
  Fs.is_dir w logDir = false →
  ∃ s, load w = (Normal s, w) ∧
       world s = w ∧
       ∀ w' level message method,
         dirs w' = dirs w →
         let r := log (logAdapter s) level message method w' in
         r.1 = Normal tt ∧
         files r.2 = files w' ∧
         ∃ e, console r.2 = console w' ++ [(ConsoleError, "Failed to write log: " +:+ e)].
Proof.
  intros logDir Hfile Hdir.
  unfold_call H (load_eval w). fold logDir in H.
  assert (Fs.exists_ w logDir = true) as Hex.
  { unfold Fs.exists_. by rewrite Hfile, orb_true_r. }
  rewrite Hex in H. eexists. split; [exact H|]. split; [done|].
  intros w' level message method Hdirs. cbn [logAdapter log defaultAdapter].
  assert (∃ e, Fs.append_error w' (join logDir "app.log") = Some e) as [e He].
  { unfold Fs.append_error. destruct (fault w'); [eauto|].
    destruct (Fs.is_dir w' (join logDir "app.log")); [eauto|].
    rewrite parent_join.
    assert (Fs.is_dir w' logDir = false) as ->.
    { unfold Fs.is_dir in *. by rewrite Hdirs. }
    destruct (Fs.is_file w' logDir); eauto. }
  unfold_call Hlog (log_eval logDir level message method w').
  rewrite He in Hlog. rewrite Hlog. cbn. eauto.
Qed.

Lemma log_path_taken_by_file_witness :
  ∃ s, load Hosts.log_is_file = (Normal s, Hosts.log_is_file) ∧
       world s = Hosts.log_is_file.
Proof.
  destruct (log_path_taken_by_file Hosts.log_is_file) as (s & Hload & Hworld & _).
  - vm_compute. reflexivity.
  - vm_compute. reflexivity.
  - exists s. split; [exact Hload | exact Hworld].
Defined.

(** X5. Loading is idempotent on the host: after a load that succeeded,
    something exists at [<cwd>/log], so that loading again, in the world the
    first load left, attempts no write, changes nothing and binds the same
    adapter. *)
Theorem load_twice w s :
  (load w).1 = Normal s →
  let w1 := (load w).2 in
  Fs.exists_ w1 (join (cwd w) "log") = true ∧
  ∃ s', load w1 = (Normal s', w1) ∧ logAdapter s' = logAdapter s.
Proof.
  set (logDir := join (cwd w) "log").
  unfold_call H (load_eval w). fold logDir in H. rewrite H. clear H.
  destruct (Fs.exists_ w logDir) eqn:Hex.
  - cbn. intros [= <-]. split; [exact Hex|].
    unfold_call H (load_eval w). fold logDir in H. rewrite Hex in H.
    eexists. split; [exact H | done].
  - destruct (Fs.mkdir_error w logDir) eqn:Hmk; [done|]. cbn [fst snd].
    intros [= <-].
    match goal with |- Fs.exists_ ?w' _ = _ ∧ _ => set (w2 := w') end.
    assert (Fs.exists_ w2 logDir = true) as Hex2.
    { unfold Fs.exists_, Fs.is_dir. subst w2. cbn [dirs set_dirs set_syscalls].
      rewrite bool_decide_eq_true_2; [done|]. right.
      apply elem_of_union_r, elem_of_list_to_set, prefixes_self.
      unfold logDir, join. by destruct (cwd w). }
    split; [exact Hex2|].
    unfold_call H (load_eval w2).
    change (cwd w2) with (cwd w) in H. fold logDir in H. rewrite Hex2 in H.
    eexists. split; [exact H | done].
Qed.

Lemma load_twice_witness :
  Fs.exists_ (load Example.fresh).2 (join (cwd Example.fresh) "log") = true.
Proof.
  destruct (load Example.fresh) as [[s|e] w1] eqn:Hload.
  - pose proof (load_twice Example.fresh s) as H. rewrite Hload in H.
    exact (proj1 (H eq_refl)).
  - exfalso. vm_compute in Hload. discriminate.
Defined.

(** ** Responses the middleware was not used on *)

Create HintDb keeps.

Section Ends.

Variable res : nat.

Let obs (s : State) : EndFn := end_of s res.

Lemma keeps_ret {A} (x : A) : Preserves obs (mret x).
Proof. by intros s. Qed.

Lemma keeps_bind {A B} (m : Eff State A) (k : A → Eff State B) :
  Preserves obs m → (∀ x, Preserves obs (k x)) → Preserves obs (m ≫= k).
Proof.
  intros Hm Hk s. specialize (Hm s). unfold mbind, Eff_bind.
  destruct (m s) as [[x|e] s1]; cbn [snd] in *; [|done].
  by rewrite Hk.
Qed.

Lemma keeps_try_catch {A} (body : Eff State A) (handler : string → Eff State A) :
  Preserves obs body → (∀ e, Preserves obs (handler e)) →
  Preserves obs (try_catch body handler).
Proof.
  intros Hb Hh s. specialize (Hb s). unfold try_catch.
  destruct (body s) as [[x|e] s1]; cbn [snd] in *; [done|].
  by rewrite Hh.
Qed.

Lemma keeps_gets {A} (f : State → A) : Preserves obs (gets f).
Proof. by intros s. Qed.

Lemma keeps_lift {A} (m : Eff World A) : Preserves obs (lift m).
Proof. by intros s. Qed.

Lemma keeps_record ev : Preserves obs (record ev).
Proof. by intros s. Qed.

Lemma keeps_writeLog message level method : Preserves obs (writeLog message level method).
Proof. intros s. by rewrite writeLog_eval. Qed.

Lemma keeps_setLogAdapter a : Preserves obs (setLogAdapter a).
Proof. by intros s. Qed.

Lemma keeps_set_req_requestId (f : State → gmap nat string) :
  Preserves obs (modify (λ s, set_req_requestId (f s) s)).
Proof. by intros s. Qed.

Lemma keeps_patch_other res' (f : State → EndFn) :
  res' ≠ res →
  Preserves obs (modify (λ s, set_res_end (<[res' := f s]> (res_end s)) s)).
Proof.
  intros Hne s. unfold obs, end_of, modify. cbn. by rewrite lookup_insert_ne.
Qed.

Hint Resolve keeps_ret keeps_gets keeps_lift keeps_record keeps_writeLog
  keeps_setLogAdapter keeps_set_req_requestId : keeps.

Lemma keeps_apply_end f res' args : Preserves obs (apply_end f res' args).
Proof.
  revert args. induction f as [|requestId url method startTime f IH]; intros args.
  - cbn [apply_end]. apply keeps_bind; auto with keeps.
  - cbn [apply_end]. apply keeps_bind; [auto with keeps|]. intros now.
    apply keeps_bind; [auto with keeps|]. intros _. apply IH.
Qed.

Lemma keeps_call_end res' args : Preserves obs (call_end res' args).
Proof. apply keeps_bind; [auto with keeps|]. intros f. apply keeps_apply_end. Qed.

Lemma keeps_logger req res' next :
  res' ≠ res → Preserves obs next → Preserves obs (logger req res' next).
Proof.
  intros Hne Hnext. unfold logger, call_next.
  repeat (apply keeps_bind; [solve [auto with keeps]|]; intros ?).
  apply keeps_bind; [by apply keeps_patch_other|]. intros _.
  apply keeps_bind; [auto with keeps|]. intros _. exact Hnext.
Qed.

Lemma keeps_exec p : patches res p = false → Preserves obs (exec p).
Proof.
  induction p as [|level message k IHk|req res' next IHnext k IHk|res' args k IHk
                 |b k IHk|f k IHk|body IHbody k IHk]; cbn [exec patches]; intros Hp.
  - apply keeps_ret.
  - apply keeps_bind; [|intros _; by apply IHk].
    rewrite at_level_writeLog. apply keeps_writeLog.
  - apply orb_false_elim in Hp as [Hp Hk]. apply orb_false_elim in Hp as [Hne Hn].
    apply bool_decide_eq_false in Hne.
    apply keeps_bind; [|intros _; by apply IHk].
    apply keeps_logger; [done | by apply IHnext].
  - apply keeps_bind; [apply keeps_call_end | intros _; by apply IHk].
  - apply keeps_bind; [apply keeps_setLogAdapter | intros _; by apply IHk].
  - apply keeps_bind; [apply keeps_lift | intros _; by apply IHk].
  - apply orb_false_elim in Hp as [Hb Hk].
    apply keeps_bind; [|intros _; by apply IHk].
    apply keeps_try_catch; [by apply IHbody | intros _; apply keeps_ret].
Qed.

End Ends.

(** X6. A response's [end] is replaced by the middleware only, and only
    for the response it is used on: whatever a program does besides (calls
    of the facade, calls of any response's [end], rebinding the adapter,
    uses of the middleware on other responses, failures included), the
    [end] of a response it never uses the middleware on is the one it was.
    In particular a wrapper, once installed, is never taken off. *)
Theorem end_patched_only_by_middleware res p s :
  patches res p = false → end_of (exec p s).2 res = end_of s res.
Proof. intros Hp. exact (keeps_exec res p Hp s). Qed.

Lemma end_patched_only_by_middleware_witness :
  let s := Example.module_state Example.throwing Example.ready in
  let p := Use Example.health 7 Done
             (Task (Use Example.health 8 (Finish 7 [] Done) Done)
                (SetAdapter Example.silent (Use Example.health 8 (Finish 7 [] Done) Done))) in
  end_of (exec p s).2 9 = end_of s 9.
Proof. intros s p. apply (end_patched_only_by_middleware 9 p s). reflexivity. Defined.

(** ** Calling a patched [end] *)

Lemma forwarded_three f a0 a1 a2 : forwarded f [a0; a1; a2] = [a0; a1; a2].
Proof. by destruct f. Qed.

(** With an adapter that returns, every wrapper logs, the outermost first,
    and the transport's [end] is reached. *)
Lemma apply_end_total a f res args :
  total a →
  ∀ s, logAdapter s = a →
  ∃ logs s',
    apply_end f res args s = (Normal (Js.Obj res), s') ∧
    logAdapter s' = a ∧
    history s' = history s ++ logs ++ [EvEnd res (forwarded f args)] ∧
    Forall2 (λ (c : string * string * string) ev, ∃ N,
               ev = EvLog (adapter_id a) INFO (completed_line c.1.1 c.1.2 N) (Some c.2))
            (wrappers f) logs.
Proof.
  intros Ha. revert args.
  induction f as [|requestId url method startTime f IH]; intros args s Hs.
  - exists [], (set_history (history s ++ [EvEnd res args]) s).
    split; [apply apply_end_host|]. split; [done|]. split; [done | constructor].
  - unfold_call H (apply_end_logged requestId url method startTime f res args s).
    rewrite Hs, Ha in H. rewrite H. clear H.
    match goal with |- context [apply_end f res _ ?t] => set (s1 := t) end.
    destruct (IH [Js.arg 0 args; Js.arg 1 args; Js.arg 2 args] s1 Hs)
      as (logs & s' & Hrun & Hs' & Hh & Hlogs).
    eexists (_ :: logs), s'. split; [exact Hrun|]. split; [exact Hs'|]. split.
    + rewrite Hh, forwarded_three. subst s1. cbn [history set_world set_history forwarded].
      by rewrite <- app_assoc.
    + constructor; [|exact Hlogs]. cbn. eauto.
Qed.

(** X7. With an adapter whose [log] returns, a call of a response's [end]
    completes normally however many times the middleware was used on that
    response: each wrapper logs its "completed" line once, the most recently
    installed first, then the transport's [end] is called exactly once; it
    is given the caller's arguments when the response was never patched and
    the first three of them otherwise.  The call returns what the
    transport's [end] returns. *)
Theorem call_end_runs_every_wrapper res args s :
  let a := logAdapter s in
  let f := end_of s res in
  total a →
  ∃ logs s',
    call_end res args s = (Normal (Js.Obj res), s') ∧
    history s' = history s ++ logs ++ [EvEnd res (forwarded f args)] ∧
    length logs = length (wrappers f) ∧
    Forall2 (λ (c : string * string * string) ev, ∃ N,
               ev = EvLog (adapter_id a) INFO (completed_line c.1.1 c.1.2 N) (Some c.2))
            (wrappers f) logs.
Proof.
  intros a f Ha. rewrite call_end_eval. fold f.
  destruct (apply_end_total a f res args Ha s eq_refl)
    as (logs & s' & Hrun & _ & Hh & Hlogs).
  exists logs, s'. split; [exact Hrun|]. split; [exact Hh|].
  split; [|exact Hlogs]. symmetry. by eapply Forall2_length.
Qed.

Lemma call_end_runs_every_wrapper_witness :
  let s := (exec (Use Example.health 7 Done (Use Example.health 7 Done Done))
              (Example.module_state Example.silent Example.ready)).2 in
  ∃ logs s',
    call_end 7 [Js.Str "bye"] s = (Normal (Js.Obj 7), s') ∧
    history s' = history s ++ logs ++ [EvEnd 7 (forwarded (end_of s 7) [Js.Str "bye"])] ∧
    length logs = length (wrappers (end_of s 7)).
Proof.
  intros s.
  destruct (call_end_runs_every_wrapper 7 [Js.Str "bye"] s)
    as (logs & s' & Hrun & Hh & Hlen & _).
  - intros level message method w. reflexivity.
  - exists logs, s'. split; [exact Hrun|]. split; [exact Hh | exact Hlen].
Defined.

(** X8. With an adapter whose [log] throws, a call of the [end] of a
    patched response throws the adapter's error after the outermost
    wrapper's one call of the adapter: the transport's [end] is not called,
    so the response is not completed. *)
Theorem call_end_blocked_by_throwing_adapter res args e s :
  always_throws (logAdapter s) e →
  wrappers (end_of s res) ≠ [] →
  ∃ ev s',
    call_end res args s = (Throw e, s') ∧
    history s' = history s ++ [ev] ∧
    is_end ev = false ∧
    end_of s' res = end_of s res.
Proof.
  intros Hthrow Hpatched. rewrite call_end_eval.
  destruct (end_of s res) as [|requestId url method startTime f] eqn:Hend; [done|].
  unfold_call H (apply_end_logged requestId url method startTime f res args s).
  rewrite Hthrow in H. rewrite H.
  eexists _, _. split; [reflexivity|]. split; [reflexivity|]. split; [reflexivity|].
  exact Hend.
Qed.

Lemma call_end_blocked_by_throwing_adapter_witness :
  let s := (exec (Use Example.health 7 Done (SetAdapter Example.throwing Done))
              (Example.module_state Example.silent Example.ready)).2 in
  ∃ ev s',
    call_end 7 [] s = (Throw "Error: adapter down", s') ∧
    history s' = history s ++ [ev] ∧
    is_end ev = false.
Proof.
  intros s.
  destruct (call_end_blocked_by_throwing_adapter 7 [] "Error: adapter down" s)
    as (ev & s' & Hrun & Hh & Hev & _).
  - intros level message method w. reflexivity.
  - vm_compute. discriminate.
  - exists ev, s'. split; [exact Hrun|]. split; [exact Hh | exact Hev].
Defined.

(** ** A request, from start to completion, with the built-in adapter *)

Lemma append_error_ext w w' p :
  fault w' = fault w → dirs w' = dirs w →
  Fs.append_error w p = None → Fs.append_error w' p = None.
Proof.
  intros Hf Hd. unfold Fs.append_error, Fs.is_dir. rewrite Hf, Hd.
  destruct (fault w); [done|].
  destruct (bool_decide (p = [] ∨ p ∈ dirs w)); [done|].
  destruct (bool_decide (parent p = [] ∨ parent p ∈ dirs w)); [done|].
  by destruct (Fs.is_file w (parent p)).
Qed.

Lemma default_log_same_host logDir level message method w :
  same_host w (DefaultLogAdapter.log logDir level message method w).2.
Proof.
  unfold_call H (log_eval logDir level message method w). rewrite H.
  by destruct (Fs.append_error w (join logDir "app.log")).
Qed.

(** A call of the built-in adapter on a disk that accepts no write. *)
Lemma default_log_fail logDir level message method w e :
  fault w = Some e →
  ∃ w', DefaultLogAdapter.log logDir level message method w = (Normal tt, w') ∧
        files w' = files w ∧
        console w' = console w ++ [(ConsoleError, "Failed to write log: " +:+ e)].
Proof.
  intros Hfault.
  unfold_call H (log_eval logDir level message method w).
  assert (Fs.append_error w (join logDir "app.log") = Some e) as He.
  { unfold Fs.append_error. by rewrite Hfault. }
  rewrite He in H. eexists. split; [exact H|]. done.
Qed.

(** One use of the middleware with the built-in adapter bound and a
    continuation that does nothing. *)
Lemma logger_default logDir req res s :
  let w := world s in
  let requestId := uuids w (drawn w) in
  let message := started_line requestId (req_url req) in
  let w1 := (DefaultLogAdapter.log logDir INFO message (Some (req_method req))
               (set_drawn (S (drawn w)) w)).2 in
  logAdapter s = defaultAdapter logDir →
  logger req res (mret tt) s =
  (Normal tt,
   {| world := w1;
      logAdapter := logAdapter s;
      res_end := <[res := LoggedEnd requestId (req_url req) (req_method req) (clock w)
                            (end_of s res)]> (res_end s);
      req_requestId := <[req_ref req := requestId]> (req_requestId s);
      history := history s ++ [EvLog 0 INFO message (Some (req_method req)); EvNext] |}).
Proof.
  intros w requestId message w1 Ha.
  unfold_call H (logger_eval req res (mret tt) s).
  fold w requestId message in H. rewrite Ha in H.
  rewrite (defaultAdapter_total logDir) in H. rewrite H.
  cbn. rewrite Ha. by rewrite <- app_assoc.
Qed.

(** A call of [end] on a response patched once, with the built-in adapter. *)
Lemma call_end_default logDir requestId url method startTime res args s :
  let message := completed_line requestId url (clock (world s) - startTime) in
  logAdapter s = defaultAdapter logDir →
  end_of s res = LoggedEnd requestId url method startTime HostEnd →
  call_end res args s =
  (Normal (Js.Obj res),
   set_history
     (history s ++ [EvLog 0 INFO message (Some method);
                    EvEnd res [Js.arg 0 args; Js.arg 1 args; Js.arg 2 args]])
     (set_world (DefaultLogAdapter.log logDir INFO message (Some method) (world s)).2 s)).
Proof.
  intros message Ha Hend. rewrite call_end_eval, Hend.
  unfold_call H (apply_end_logged requestId url method startTime HostEnd res args s).
  fold message in H. rewrite Ha in H. rewrite (defaultAdapter_total logDir) in H.
  rewrite H, apply_end_host. cbn. by rewrite <- app_assoc.
Qed.

(** X9. With the built-in adapter bound, a log file that can be appended
    to and a response that was not patched before, a request that passes
    the middleware and whose response is ended when the clock shows [t]
    extends the log file by exactly two records, in this order: the
    "started" record, stamped with the time of arrival, and the
    "completed" record, stamped with [t] and reporting [t] minus the time
    of arrival; both are INFO records that carry the request's method and
    the same identifier. *)
Theorem request_leaves_two_records logDir req res args t s :
  let path := join logDir "app.log" in
  let w := world s in
  let requestId := uuids w (drawn w) in
  let method := Some (req_method req) in
  let url := req_url req in
  logAdapter s = defaultAdapter logDir →
  Fs.append_error w path = None →
  end_of s res = HostEnd →
  ∃ s', exec (Use req res Done (Elapse (set_clock t) (Finish res args Done))) s
        = (Normal tt, s') ∧
        files (world s') !! path
        = Some (default "" (files w !! path) +:+
                record_line (toLocaleString w (clock w)) INFO method
                  (started_line requestId url) +:+
                record_line (toLocaleString w t) INFO method
                  (completed_line requestId url (t - clock w))).
Proof.
  intros path w requestId method url Ha Happend Hfresh.
  cbn [exec].
  rewrite (bind_normal _ _ _ _ _ (logger_default logDir req res s Ha)).
  fold w requestId url. rewrite Hfresh.
  set (w0 := set_drawn (S (drawn w)) w).
  destruct (default_log_ok logDir INFO (started_line requestId url) method w0)
    as (w1 & Hlog1 & Hsame1 & Hfiles1 & _).
  { by apply (append_error_ext w). }
  fold method. rewrite Hlog1. cbn [snd].
  match goal with |- context [mbind _ _ ?t] => set (s1 := t) end.
  assert (lift (modify (set_clock t)) s1
          = (Normal tt, set_world (set_clock t w1) s1)) as Hstep by reflexivity.
  rewrite (bind_normal _ _ _ _ _ Hstep). clear Hstep.
  set (s2 := set_world (set_clock t w1) s1).
  destruct Hsame1 as (_ & Hd1 & Hf1 & Hc1 & Hl1 & _).
  subst w0. cbn [dirs fault clock toLocaleString files set_drawn] in Hd1, Hf1, Hc1, Hl1, Hfiles1.
  destruct (default_log_ok logDir INFO
              (completed_line requestId url (clock (world s2) - clock w)) method
              (world s2))
    as (w3 & Hlog2 & _ & Hfiles2 & _).
  { apply (append_error_ext w); [| |exact Happend]; cbn; congruence. }
  assert (end_of s2 res
          = LoggedEnd requestId url (req_method req) (clock w) HostEnd) as Hend.
  { unfold end_of. subst s2 s1. cbn. by rewrite lookup_insert_eq. }
  rewrite (bind_normal _ _ _ _ _
             (call_end_default logDir requestId url (req_method req) (clock w)
                res args s2 Ha Hend)).
  fold method. rewrite Hlog2. eexists. split; [reflexivity|].
  cbn [world set_world set_history snd].
  rewrite Hfiles2, lookup_insert_eq. f_equal.
  subst s2. cbn [world set_world files set_clock clock toLocaleString].
  rewrite Hfiles1, lookup_insert_eq. cbn [default]. unfold id.
  rewrite Hl1. cbn [toLocaleString clock set_drawn].
  by rewrite string_app_assoc.
Qed.

Lemma request_leaves_two_records_witness :
  let s := Example.module_state (defaultAdapter Example.logDir) Example.ready in
  let t := clock Example.ready + 12 in
  files (world (exec (Use Example.health 7 Done
                        (Elapse (set_clock t) (Finish 7 [] Done))) s).2)
    !! join Example.logDir "app.log"
  = Some ("[INFO] GET T1700000000000: [id-0] /health - Request started" +:+ LF +:+
          "[INFO] GET T1700000000012: [id-0] /health - Request completed in 12ms" +:+ LF).
Proof.
  intros s t.
  destruct (request_leaves_two_records Example.logDir Example.health 7 [] t s)
    as (s' & Hrun & Hfile).
  - reflexivity.
  - vm_compute. reflexivity.
  - reflexivity.
  - rewrite Hrun. cbn [snd]. rewrite Hfile. vm_compute. reflexivity.
Defined.

(** X10. With the built-in adapter bound, a disk that accepts no write
    does not disturb a request: the middleware calls the continuation, the
    call of the response's [end] reaches the transport's [end] and returns
    normally, no file changes, and each of the two records that could not
    be appended leaves one line on [console.error]. *)
Theorem request_survives_failing_disk logDir req res args e s :
  let w := world s in
  let requestId := uuids w (drawn w) in
  let method := Some (req_method req) in
  let url := req_url req in
  logAdapter s = defaultAdapter logDir →
  fault w = Some e →
  end_of s res = HostEnd →
  ∃ s', exec (Use req res Done (Finish res args Done)) s = (Normal tt, s') ∧
        history s' = history s ++
          [EvLog 0 INFO (started_line requestId url) method;
           EvNext;
           EvLog 0 INFO (completed_line requestId url 0) method;
           EvEnd res [Js.arg 0 args; Js.arg 1 args; Js.arg 2 args]] ∧
        files (world s') = files w ∧
        console (world s') = console w ++
          [(ConsoleError, "Failed to write log: " +:+ e);
           (ConsoleError, "Failed to write log: " +:+ e)].
Proof.
  intros w requestId method url Ha Hfault Hfresh.
  cbn [exec].
  rewrite (bind_normal _ _ _ _ _ (logger_default logDir req res s Ha)).
  fold w requestId url method. rewrite Hfresh.
  set (w0 := set_drawn (S (drawn w)) w).
  pose proof (default_log_same_host logDir INFO (started_line requestId url) method w0)
    as (_ & _ & Hf1 & Hc1 & _).
  destruct (default_log_fail logDir INFO (started_line requestId url) method w0 e Hfault)
    as (w1 & Hlog1 & Hfiles1 & Hconsole1).
  rewrite Hlog1 in Hf1, Hc1 |- *. cbn [snd] in *.
  match goal with |- context [mbind _ _ ?t] => set (s1 := t) end.
  assert (end_of s1 res
          = LoggedEnd requestId url (req_method req) (clock w) HostEnd) as Hend.
  { unfold end_of. subst s1. cbn. by rewrite lookup_insert_eq. }
  rewrite (bind_normal _ _ _ _ _
             (call_end_default logDir requestId url (req_method req) (clock w)
                res args s1 Ha Hend)).
  fold method.
  assert (clock (world s1) - clock w = 0) as -> by (subst s1 w0; cbn in *; lia).
  destruct (default_log_fail logDir INFO (completed_line requestId url 0) method
              (world s1) e) as (w2 & Hlog2 & Hfiles2 & Hconsole2).
  { subst s1 w0. cbn in *. congruence. }
  rewrite Hlog2. eexists. split; [reflexivity|].
  cbn [world set_world set_history history snd]. subst s1. cbn [world history] in *.
  split; [by rewrite <- app_assoc|]. split.
  - by rewrite Hfiles2, Hfiles1.
  - rewrite Hconsole2, Hconsole1. subst w0. cbn [console set_drawn].
    by rewrite <- app_assoc.
Qed.

Lemma request_survives_failing_disk_witness :
  let s := Example.module_state (defaultAdapter Example.logDir) Example.full_disk in
  ∃ s', exec (Use Example.health 7 Done (Finish 7 [] Done)) s = (Normal tt, s') ∧
        files (world s') = files (world s).
Proof.
  intros s.
  destruct (request_survives_failing_disk Example.logDir Example.health 7 []
              "Error: ENOSPC: no space left on device, write" s)
    as (s' & Hrun & _ & Hfiles & _).
  - reflexivity.
  - reflexivity.
  - reflexivity.
  - exists s'. split; [exact Hrun | exact Hfiles].
Defined.

(** ** Identifiers *)

(** The identifiers a series of requests is given, with the built-in
    adapter bound. *)
Lemma serve_ids logDir reqs :
  ∀ s, logAdapter s = defaultAdapter logDir →
  ∃ s', exec (serve reqs) s = (Normal tt, s') ∧
        uuids (world s') = uuids (world s) ∧
        drawn (world s') = (drawn (world s) + length reqs)%nat ∧
        (∀ ref, ref ∉ map (λ r, req_ref r.1) reqs →
                req_requestId s' !! ref = req_requestId s !! ref) ∧
        (NoDup (map (λ r, req_ref r.1) reqs) →
         ∀ i req res, reqs !! i = Some (req, res) →
           req_requestId s' !! req_ref req
           = Some (uuids (world s) (drawn (world s) + i)%nat)).
Proof.
  induction reqs as [|[req0 res0] reqs IH]; intros s Ha.
  - exists s. split; [done|]. split; [done|]. split; [cbn; lia|]. split; [done|].
    intros _ i req res Hi. by rewrite lookup_nil in Hi.
  - cbn [serve foldr exec fst snd]. fold (serve reqs).
    rewrite (bind_normal _ _ _ _ _ (logger_default logDir req0 res0 s Ha)).
    match goal with |- context [exec _ ?t] => set (s1 := t) end.
    pose proof (default_log_same_host logDir INFO
                  (started_line (uuids (world s) (drawn (world s))) (req_url req0))
                  (Some (req_method req0))
                  (set_drawn (S (drawn (world s))) (world s)))
      as (_ & _ & _ & _ & _ & _ & Hu1 & Hd1).
    cbn [uuids drawn set_drawn] in Hu1, Hd1.
    destruct (IH s1 Ha) as (s' & Hrun & Hu & Hd & Hother & Hids).
    change (uuids (world s1)) with
      (uuids (DefaultLogAdapter.log logDir INFO
                (started_line (uuids (world s) (drawn (world s))) (req_url req0))
                (Some (req_method req0))
                (set_drawn (S (drawn (world s))) (world s))).2) in Hu, Hids.
    change (drawn (world s1)) with
      (drawn (DefaultLogAdapter.log logDir INFO
                (started_line (uuids (world s) (drawn (world s))) (req_url req0))
                (Some (req_method req0))
                (set_drawn (S (drawn (world s))) (world s))).2) in Hd, Hids.
    rewrite Hu1 in Hu, Hids. rewrite Hd1 in Hd, Hids.
    exists s'. split; [exact Hrun|]. split; [exact Hu|].
    split; [rewrite Hd; cbn; lia|]. split.
    + intros ref Href. cbn [map fst] in Href.
      apply not_elem_of_cons in Href as [Hne Href].
      rewrite (Hother ref Href). subst s1. cbn [req_requestId].
      by rewrite lookup_insert_ne.
    + intros Hnodup i req res Hi. cbn [map fst] in Hnodup.
      apply NoDup_cons in Hnodup as [Hfirst Hnodup].
      destruct i as [|i]; cbn in Hi.
      * simplify_eq. rewrite (Hother _ Hfirst). subst s1. cbn [req_requestId].
        rewrite lookup_insert_eq. do 2 f_equal. lia.
      * rewrite (Hids Hnodup i req res Hi). do 2 f_equal. lia.
Qed.

(** X11. With the built-in adapter bound, the middleware draws one
    identifier for each request and the adapter draws none: the [i]-th of a
    series of requests, on request objects that are pairwise different, is
    given the [i]-th identifier the random source yields from where it
    stood.  So the identifiers of two of these requests differ whenever the
    random source does not repeat itself. *)
Theorem requests_get_consecutive_ids logDir reqs s :
  let w := world s in
  logAdapter s = defaultAdapter logDir →
  NoDup (map (λ r, req_ref r.1) reqs) →
  ∃ s', exec (serve reqs) s = (Normal tt, s') ∧
        drawn (world s') = (drawn w + length reqs)%nat ∧
        (∀ i req res, reqs !! i = Some (req, res) →
           req_requestId s' !! req_ref req = Some (uuids w (drawn w + i)%nat)) ∧
        ((∀ m n, uuids w m = uuids w n → m = n) →
         ∀ i j req res req' res',
           reqs !! i = Some (req, res) → reqs !! j = Some (req', res') → i ≠ j →
           req_requestId s' !! req_ref req ≠ req_requestId s' !! req_ref req').
Proof.
  intros w Ha Hnodup.
  destruct (serve_ids logDir reqs s Ha) as (s' & Hrun & _ & Hd & _ & Hids).
  exists s'. split; [exact Hrun|]. split; [exact Hd|]. split; [by apply Hids|].
  intros Hinj i j req res req' res' Hi Hj Hne.
  rewrite (Hids Hnodup i req res Hi), (Hids Hnodup j req' res' Hj).
  intros [= Heq]. apply Hinj in Heq. fold w in Heq. lia.
Qed.

Lemma requests_get_consecutive_ids_witness :
  let s := Example.module_state (defaultAdapter Example.logDir) Example.ready in
  let other := {| req_ref := 2; req_method := "POST"; req_url := "/orders" |} in
  ∃ s', exec (serve [(Example.health, 7%nat); (other, 8%nat)]) s = (Normal tt, s') ∧
        req_requestId s' !! 2%nat = Some (uuids (world s) (drawn (world s) + 1)%nat).
Proof.
  intros s other.
  destruct (requests_get_consecutive_ids Example.logDir
              [(Example.health, 7%nat); (other, 8%nat)] s)
    as (s' & Hrun & _ & Hids & _).
  - reflexivity.
  - cbn. apply NoDup_cons. split; [|apply NoDup_singleton].
    by intros ?%list_elem_of_singleton.
  - exists s'. split; [exact Hrun|]. exact (Hids 1%nat other 8%nat eq_refl).
Defined.

(** ** Starting the server *)

Lemma startServer_eval port listen s :
  let callback := Log.info ("Server running on port " +:+ Js.interp port) in
  startServer port listen s =
  match listen port callback s with
  | (Normal _, s1) => (Normal Running, s1)
  | (Throw e, s1) =>
      match writeLog ("Failed to start server: " +:+ e) (Some ERROR) None s1 with
      | (Normal _, s2) => (Normal (Exited 1), s2)
      | (Throw e', s2) => (Throw e', s2)
      end
  end.
Proof.
  intros callback. unfold startServer, try_catch, Log.error, mbind, Eff_bind.
  fold callback. destruct (listen port callback s) as [[[]|e] s1]; [reflexivity|].
  by destruct (writeLog _ _ _ s1) as [[[]|e'] s2].
Qed.

(** X12. [startServer] with an adapter whose [log] returns never throws.
    When the application's [listen] returns, so does [startServer], and it
    logs nothing of its own.  When [listen] throws, [startServer] makes one
    call of the adapter, with level ERROR, the message
    ["Failed to start server: "] followed by the error, and no method, and
    then ends the process with exit code 1. *)
Theorem startServer_outcomes port listen s :
  let callback := Log.info ("Server running on port " +:+ Js.interp port) in
  let r := listen port callback s in
  total (logAdapter r.2) →
  match r.1 with
  | Normal _ => startServer port listen s = (Normal Running, r.2)
  | Throw e =>
      ∃ s', startServer port listen s = (Normal (Exited 1), s') ∧
            history s' = history r.2 ++
              [EvLog (adapter_id (logAdapter r.2)) ERROR
                 ("Failed to start server: " +:+ e) None]
  end.
Proof.
  intros callback r Ha. rewrite startServer_eval. fold callback. fold r.
  destruct r as [[[]|e] s1]; cbn [fst snd] in *; [done|].
  rewrite writeLog_eval. cbv zeta. cbn [default]. unfold id. rewrite Ha.
  eexists. split; [reflexivity|]. done.
Qed.

Lemma startServer_outcomes_witness :
  let s := Example.module_state (defaultAdapter Example.logDir) Example.ready in
  ∃ s', startServer None Hosts.bad_port s = (Normal (Exited 1), s') ∧
        history s' = history s ++
          [EvLog 0 ERROR
             ("Failed to start server: " +:+
              "RangeError [ERR_SOCKET_BAD_PORT]: options.port should be >= 0 and < 65536")
             None].
Proof.
  intros s.
  pose proof (startServer_outcomes None Hosts.bad_port s) as H.
  cbv zeta in H. apply H. apply defaultAdapter_total.
Defined.
